(** * ClusterState: the manager's merge engine and its latency ranking

    A shallow embedding of [src/mgr/ClusterState.cc]: the staging of PG
    statistics reports ([ingest_pgstats]), the two commit points
    ([update_delta_stats], [notify_osdmap]), and the [dump_osd_network]
    admin-socket command ([asok_command], [ClusterSocketHook::call]).

    Machine integers are carried in [Z]; the places where the C++ code
    narrows or converts are written out.  [std::map]s that are looked up
    and assigned into are [gmap]s; a range-for over a [std::map] walks its
    entries in ascending key order, which [map_entries] provides. *)

From stdpp Require Import gmap strings list fin_maps sorting.
From Stdlib Require Import ZArith.
From Stdlib Require SpecFloat.

Local Open Scope Z_scope.

(* [set_solver] clears hypotheses by name; the notice is noise here. *)
#[local] Set Warnings "-clear-no-such-hyp".

(** ** Data model *)

(** [pg_t]: a placement group is named by its pool and a seed. *)
Record pg_t := mk_pg { m_pool : Z; m_seed : Z }.

Global Instance pg_t_eq_dec : EqDecision pg_t.
Proof. solve_decision. Defined.

Global Instance pg_t_countable : Countable pg_t :=
  inj_countable' (λ p, (m_pool p, m_seed p)) (λ q, mk_pg q.1 q.2)
                 (λ p, match p with mk_pg _ _ => eq_refl end).

(** [pg_stat_t], cut down to the fields the manager inspects. *)
Record pg_stat_t := mk_pg_stat {
  reported_epoch : Z;
  reported_seq : Z;
  state : Z
}.

Global Instance pg_stat_t_eq_dec : EqDecision pg_stat_t.
Proof. solve_decision. Defined.

(** [std::array<uint32_t,3>]: the 1, 5 and 15 minute windows. *)
Record array3 := mk_array3 { at0 : Z; at1 : Z; at2 : Z }.

Global Instance array3_eq_dec : EqDecision array3.
Proof. solve_decision. Defined.

(** [osd_stat_t::Interfaces]: heartbeat ping times towards one peer. *)
Record Interfaces := mk_Interfaces {
  back_pingtime : array3;
  back_min : array3;
  back_max : array3;
  back_last : Z;
  front_pingtime : array3;
  front_min : array3;
  front_max : array3;
  front_last : Z
}.

Global Instance Interfaces_eq_dec : EqDecision Interfaces.
Proof. solve_decision. Defined.

(** [osd_stat_t]: only the heartbeat table is looked into. *)
Record osd_stat_t := mk_osd_stat {
  hb_pingtime : gmap Z Interfaces
}.

Global Instance osd_stat_t_eq_dec : EqDecision osd_stat_t.
Proof. solve_decision. Defined.

(** [MPGStats]: one report of an OSD.  [msg_pg_stat] is the message's
    [map<pg_t,pg_stat_t>] as the sequence of entries the range-for
    visits. *)
Record MPGStats := mk_MPGStats {
  orig_source_num : Z;
  msg_epoch : Z;
  msg_osd_stat : osd_stat_t;
  msg_pg_stat : list (pg_t * pg_stat_t)
}.

(** [PGMap]: the versioned aggregate. *)
Record PGMap := mk_PGMap {
  version : Z;
  pg_stat : gmap pg_t pg_stat_t;
  osd_stat : gmap Z osd_stat_t
}.

(** [PGMap::Incremental]: the pending delta. *)
Record Incremental := mk_Incremental {
  inc_version : Z;
  stamp : Z;
  pg_stat_updates : gmap pg_t pg_stat_t;
  osd_stat_updates : gmap Z osd_stat_t
}.

(** [pg_pool_t] is opaque to the manager. *)
Inductive pg_pool_t := PoolInfo (opaque : Z).

Record OSDMap := mk_OSDMap {
  get_pools : gmap Z pg_pool_t
}.

(** The members of [ClusterState] that the merge engine owns. *)
Record ClusterState := mk_ClusterState {
  pg_map : PGMap;
  pending_inc : Incremental;
  existing_pools : gset Z
}.

(** [PGMap::Incremental()] and the state the constructor leaves:
    every member default-constructed. *)
Definition Incremental_new : Incremental :=
  {| inc_version := 0; stamp := 0; pg_stat_updates := ∅; osd_stat_updates := ∅ |}.

Definition PGMap_new : PGMap :=
  {| version := 0; pg_stat := ∅; osd_stat := ∅ |}.

Definition ClusterState_new : ClusterState :=
  {| pg_map := PGMap_new; pending_inc := Incremental_new; existing_pools := ∅ |}.

(** ** Walking a [std::map] with integer keys *)

Definition key_le {V} (a b : Z * V) : Prop := a.1 ≤ b.1.

Global Instance key_le_dec {V} (a b : Z * V) : Decision (key_le a b).
Proof. unfold key_le. apply _. Defined.

Global Instance key_le_total {V} : Total (@key_le V).
Proof. intros a b. unfold key_le. lia. Qed.

Global Instance key_le_trans {V} : Transitive (@key_le V).
Proof. intros a b c. unfold key_le. lia. Qed.

(** The entries of [m] in ascending key order. *)
Definition map_entries {V} (m : gmap Z V) : list (Z * V) :=
  merge_sort key_le (map_to_list m).

(** ** Version pairs *)

(** [pg_stat_t::get_version_pair]. *)
Definition get_version_pair (s : pg_stat_t) : Z * Z :=
  (reported_epoch s, reported_seq s).

(** [operator<] and [operator>] of [std::pair]. *)
Definition pair_lt (x y : Z * Z) : bool :=
  (x.1 <? y.1) || (negb (y.1 <? x.1) && (x.2 <? y.2)).

Definition pair_gt (x y : Z * Z) : bool := pair_lt y x.

(** ** Staging *)

(** Modelled from the spec: [PGMap::Incremental::update_stat] is declared
    in a header that is not part of the sources.  It stages the reporter
    summary under the reporter id; the pending delta of the spec keeps no
    record of the report epoch. *)
Definition update_stat (from : Z) (epoch : Z) (st : osd_stat_t)
    (inc : Incremental) : Incremental :=
  {| inc_version := inc_version inc;
     stamp := stamp inc;
     pg_stat_updates := pg_stat_updates inc;
     osd_stat_updates := <[from := st]> (osd_stat_updates inc) |}.

(** [pending_inc.pg_stat_updates[pgid] = pg_stats]. *)
Definition stage_pg (pgid : pg_t) (pg_stats : pg_stat_t)
    (inc : Incremental) : Incremental :=
  {| inc_version := inc_version inc;
     stamp := stamp inc;
     pg_stat_updates := <[pgid := pg_stats]> (pg_stat_updates inc);
     osd_stat_updates := osd_stat_updates inc |}.

(** The guard of the second [continue]: the aggregate has the PG and its
    version pair is strictly greater than the incoming one. *)
Definition heard_more_recent (pm : PGMap) (pgid : pg_t) (pg_stats : pg_stat_t) : bool :=
  match pg_stat pm !! pgid with
  | Some q => pair_gt (get_version_pair q) (get_version_pair pg_stats)
  | None => false
  end.

(** One turn of the loop over [stats->pg_stat]. *)
Definition ingest_pg (pools : gset Z) (pm : PGMap)
    (inc : Incremental) (p : pg_t * pg_stat_t) : Incremental :=
  let pgid := p.1 in
  let pg_stats := p.2 in
  if bool_decide (m_pool pgid ∈ pools) then
    if heard_more_recent pm pgid pg_stats then inc
    else stage_pg pgid pg_stats inc
  else inc.

(** [ClusterState::ingest_pgstats]. *)
Definition ingest_pgstats (cs : ClusterState) (stats : MPGStats) : ClusterState :=
  let from := orig_source_num stats in
  let inc := update_stat from (msg_epoch stats) (msg_osd_stat stats) (pending_inc cs) in
  {| pg_map := pg_map cs;
     pending_inc := foldl (ingest_pg (existing_pools cs) (pg_map cs)) inc (msg_pg_stat stats);
     existing_pools := existing_pools cs |}.

(** ** Commit *)

(** Modelled from the spec: [PGMap::apply_incremental] lives in PGMap.cc,
    which is not part of the sources.  It requires the delta's target
    version to be the aggregate's version plus one (a violated
    precondition aborts the process: [None]), folds every staged resource
    and reporter update into the aggregate and sets the aggregate's
    version to the target version. *)
Definition apply_incremental (pm : PGMap) (inc : Incremental) : option PGMap :=
  if bool_decide (inc_version inc = version pm + 1) then
    Some {| version := inc_version inc;
            pg_stat := pg_stat_updates inc ∪ pg_stat pm;
            osd_stat := osd_stat_updates inc ∪ osd_stat pm |}
  else None.

(** The two assignments that open both commit paths. *)
Definition prepare_inc (now : Z) (pm : PGMap) (inc : Incremental) : Incremental :=
  {| inc_version := version pm + 1;
     stamp := now;
     pg_stat_updates := pg_stat_updates inc;
     osd_stat_updates := osd_stat_updates inc |}.

(** [ClusterState::update_delta_stats]; [now] is [ceph_clock_now()]. *)
Definition update_delta_stats (now : Z) (cs : ClusterState) : option ClusterState :=
  let inc := prepare_inc now (pg_map cs) (pending_inc cs) in
  match apply_incremental (pg_map cs) inc with
  | Some pm => Some {| pg_map := pm;
                       pending_inc := Incremental_new;
                       existing_pools := existing_pools cs |}
  | None => None
  end.

(** The loop that refills [existing_pools] after [clear()]. *)
Definition pools_of (m : OSDMap) : gset Z :=
  foldl (λ s p, {[ p.1 ]} ∪ s) ∅ (map_entries (get_pools m)).

Section Collaborators.
(** [PGMapUpdater::check_osd_map] and [PGMapUpdater::check_down_pgs]:
    they read the map and the aggregate and write into the delta. *)
Variable check_osd_map : OSDMap → PGMap → Incremental → Incremental.
Variable check_down_pgs : OSDMap → PGMap → bool → gset Z → Incremental → Incremental.

(** [ClusterState::notify_osdmap]. *)
Definition notify_osdmap (now : Z) (osd_map : OSDMap) (cs : ClusterState)
    : option ClusterState :=
  let inc := prepare_inc now (pg_map cs) (pending_inc cs) in
  let inc := check_osd_map osd_map (pg_map cs) inc in
  let pools := pools_of osd_map in
  let need_check_down_pg_osds : gset Z := ∅ in
  let inc := check_down_pgs osd_map (pg_map cs) true need_check_down_pg_osds inc in
  match apply_incremental (pg_map cs) inc with
  | Some pm => Some {| pg_map := pm;
                       pending_inc := Incremental_new;
                       existing_pools := pools |}
  | None => None
  end.
End Collaborators.

(** ** The [dump_osd_network] command *)

(** [struct mgr_ping_time_t], local to [asok_command]. *)
Record mgr_ping_time_t := mk_mgr_ping_time {
  pingtime : Z;
  from : Z;
  to : Z;
  back : bool;
  times : array3;
  min : array3;
  max : array3;
  last : Z
}.

Global Instance mgr_ping_time_t_eq_dec : EqDecision mgr_ping_time_t.
Proof. solve_decision. Defined.

(** [mgr_ping_time_t::operator<], branch by branch. *)
Definition ping_lt (lhs rhs : mgr_ping_time_t) : bool :=
  if pingtime lhs <? pingtime rhs then true
  else if pingtime lhs >? pingtime rhs then false
  else if from lhs <? from rhs then true
  else if from lhs >? from rhs then false
  else if to lhs <? to rhs then true
  else if to lhs >? to rhs then false
  else back lhs.

(** [std::set<mgr_ping_time_t>], kept as the list of its elements in
    iteration order.  [emplace] walks to the first element the new one is
    less than; an element that is neither less nor greater than the new
    one is its equivalent and blocks the insertion.  On a sorted list and
    with a transitive comparison ([set_emplace_sorted], [ping_lt_trans]
    below) this is the unique-insertion of the red-black tree, which
    compares the new element with the predecessor of that position. *)
Fixpoint set_emplace (item : mgr_ping_time_t) (sorted : list mgr_ping_time_t)
    : list mgr_ping_time_t :=
  match sorted with
  | [] => [item]
  | y :: rest =>
      if ping_lt item y then item :: y :: rest
      else if ping_lt y item then y :: set_emplace item rest
      else y :: rest
  end.

(** [std::max] over the three windows. *)
Definition max3 (a : array3) : Z := Z.max (Z.max (at0 a) (at1 a)) (at2 a).

(** [!value || item.pingtime >= value]. *)
Definition over_threshold (value : Z) (p : Z) : bool :=
  (value =? 0) || (p >=? value).

Definition back_item (i j : Z) (x : Interfaces) : mgr_ping_time_t :=
  {| pingtime := max3 (back_pingtime x);
     from := i; to := j; back := true;
     times := back_pingtime x; min := back_min x; max := back_max x;
     last := back_last x |}.

Definition front_item (i j : Z) (x : Interfaces) : mgr_ping_time_t :=
  {| pingtime := max3 (front_pingtime x);
     from := i; to := j; back := false;
     times := front_pingtime x; min := front_min x; max := front_max x;
     last := front_last x |}.

(** The body of the inner loop, for peer [j] of OSD [i]. *)
Definition scan_peer (value : Z) (i : Z) (sorted : list mgr_ping_time_t)
    (j : Z * Interfaces) : list mgr_ping_time_t :=
  let sorted :=
    if over_threshold value (max3 (back_pingtime j.2))
    then set_emplace (back_item i j.1 j.2) sorted else sorted in
  if front_last j.2 =? 0 then sorted
  else if over_threshold value (max3 (front_pingtime j.2))
       then set_emplace (front_item i j.1 j.2) sorted else sorted.

(** The body of the outer loop. *)
Definition scan_osd (value : Z) (sorted : list mgr_ping_time_t)
    (i : Z * osd_stat_t) : list mgr_ping_time_t :=
  foldl (scan_peer value i.1) sorted (map_entries (hb_pingtime i.2)).

(** The set as it stands after both loops. *)
Definition collect_sorted (value : Z) (pm : PGMap) : list mgr_ping_time_t :=
  foldl (scan_osd value) [] (map_entries (osd_stat pm)).

(** The calls made on the [Formatter]. *)
Inductive fmt_call :=
  | open_object_section (name : string)
  | open_array_section (name : string)
  | dump_int (name : string) (v : Z)
  | dump_unsigned (name : string) (v : Z)
  | dump_string (name : string) (v : string)
  | close_section.

Definition dump_array3 (section : string) (a : array3) : list fmt_call :=
  [ open_object_section section;
    dump_unsigned "1min" (at0 a);
    dump_unsigned "5min" (at1 a);
    dump_unsigned "15min" (at2 a);
    close_section ].

(** The body of the output loop after its assertion. *)
Definition dump_entry (sitem : mgr_ping_time_t) : list fmt_call :=
  [ open_object_section "entry";
    dump_int "from osd" (from sitem);
    dump_int "to osd" (to sitem);
    dump_string "interface" (if back sitem then "back" else "front") ]
  ++ dump_array3 "average" (times sitem)
  ++ dump_array3 "min" (min sitem)
  ++ dump_array3 "max" (max sitem)
  ++ [ dump_unsigned "last" (last sitem); close_section ].

(** The output loop; [None] is a failed [ceph_assert]. *)
Fixpoint dump_entries (value : Z) (l : list mgr_ping_time_t) : option (list fmt_call) :=
  match l with
  | [] => Some []
  | sitem :: rest =>
      if over_threshold value (pingtime sitem) then
        match dump_entries value rest with
        | Some calls => Some (dump_entry sitem ++ calls)
        | None => None
        end
      else None
  end.

(** What the entries section is wrapped in. *)
Definition network_ping_times (value : Z) (entries : list fmt_call) : list fmt_call :=
  [ open_object_section "network_ping_times";
    dump_int "threshold" value;
    open_array_section "entries" ]
  ++ entries ++ [ close_section; close_section ].

(** A text sink ([stringstream], [bufferlist]) holds flushed formatter
    documents and plain text, in the order written. *)
Inductive out_piece :=
  | Flushed (format : string) (calls : list fmt_call)
  | Text (s : string).

(** How a call ends: it returns, it throws [bad_cmd_get], or the process
    aborts. *)
Inductive ending :=
  | Returns (r : bool)
  | Throws (what : string)
  | Aborts (msg : string).

(** The values a [cmdmap_t] can hold. *)
Inductive cmd_vartype :=
  | CmdString (s : string)
  | CmdBool (b : bool)
  | CmdInt (v : Z).

Inductive getval_result :=
  | GetTrue (v : Z)
  | GetFalse
  | GetThrows (what : string).

(** Modelled from the spec: [bad_cmd_get] comes from common/cmdparse.h,
    which is not part of the sources, and the specification leaves the
    text of [what()] open; here it names the field. *)
Definition bad_cmd_get_what (k : string) : string :=
  "bad or missing field '" +:+ k +:+ "'".

(** Modelled from the spec: [cmd_getval] comes from common/cmdparse.h,
    which is not part of the sources.  Extraction of an integer parameter
    succeeds with the value, reports a missing parameter, or raises the
    bad-argument condition that [ClusterSocketHook::call] catches. *)
Definition cmd_getval (cmdmap : gmap string cmd_vartype) (k : string) : getval_result :=
  match cmdmap !! k with
  | None => GetFalse
  | Some (CmdInt v) => GetTrue v
  | Some _ => GetThrows (bad_cmd_get_what k)
  end.

(** [static_cast<int64_t>] of a [uint64_t]. *)
Definition to_int64 (u : Z) : Z :=
  if u <? 2 ^ 63 then u else u - 2 ^ 64.

Section Command.
(** Double precision arithmetic is not interpreted: [double] is the type
    of the configured ratio and [scale_by value ratio] is what
    [value *= 1000000 * ratio] leaves in the 64-bit [value]. *)
Variable double : Type.
Variable scale_by : Z → double → Z.

Record Config := mk_Config {
  mon_warn_on_slow_ping_time : Z;
  mon_warn_on_slow_ping_ratio : double;
  osd_heartbeat_grace : Z
}.

(** The threshold when [cmd_getval] returned false. *)
Definition default_value (conf : Config) : Z :=
  let value := to_int64 (mon_warn_on_slow_ping_time conf) in
  if value =? 0 then
    let ratio := mon_warn_on_slow_ping_ratio conf in
    let value := osd_heartbeat_grace conf in
    scale_by value ratio
  else value.

(** [if (value < 0) value = 0;] *)
Definition clamp (value : Z) : Z := if value <? 0 then 0 else value.

(** [ClusterState::asok_command], writing to the stream [ss]. *)
Definition asok_command (conf : Config) (cs : ClusterState)
    (admin_command : string) (cmdmap : gmap string cmd_vartype)
    (format : string) (ss : list out_piece) : ending * list out_piece :=
  if bool_decide (admin_command = "dump_osd_network") then
    let got :=
      match cmd_getval cmdmap "value" with
      | GetTrue v => inr v
      | GetFalse => inr (default_value conf)
      | GetThrows what => inl what
      end in
    match got with
    | inl what => (Throws what, ss)
    | inr value =>
        let value := clamp value in
        let sorted := collect_sorted value (pg_map cs) in
        match dump_entries value (reverse sorted) with
        | Some entries =>
            (Returns true, ss ++ [Flushed format (network_ping_times value entries)])
        | None => (Aborts "assert", ss)
        end
    end
  else (Aborts "broken asok registration", ss).

(** [ClusterSocketHook::call]; an abort leaves no result. *)
Definition call (conf : Config) (cs : ClusterState)
    (admin_command : string) (cmdmap : gmap string cmd_vartype)
    (format : string) (out : list out_piece) : option (bool * list out_piece) :=
  let ss : list out_piece := [] in
  match asok_command conf cs admin_command cmdmap format ss with
  | (Returns r, ss) => Some (r, out ++ ss)
  | (Throws what, ss) => Some (true, out ++ (ss ++ [Text what]))
  | (Aborts _, _) => None
  end.
End Command.

Arguments mk_Config {double}.
Arguments mon_warn_on_slow_ping_time {double}.
Arguments mon_warn_on_slow_ping_ratio {double}.
Arguments osd_heartbeat_grace {double}.
Arguments default_value {double}.
Arguments asok_command {double}.
Arguments call {double}.

(** ** Sequences of calls *)

(** The three entry points the manager's threads drive. *)
Inductive op :=
  | Report (stats : MPGStats)
  | Tick (now : Z)
  | NewMap (now : Z) (osd_map : OSDMap).

(** The entry points that end in [apply_incremental]. *)
Definition is_commit (o : op) : bool :=
  match o with
  | Report _ => false
  | Tick _ | NewMap _ _ => true
  end.

Section Runs.
Variable check_osd_map : OSDMap → PGMap → Incremental → Incremental.
Variable check_down_pgs : OSDMap → PGMap → bool → gset Z → Incremental → Incremental.

Definition step (cs : ClusterState) (o : op) : option ClusterState :=
  match o with
  | Report stats => Some (ingest_pgstats cs stats)
  | Tick now => update_delta_stats now cs
  | NewMap now osd_map => notify_osdmap check_osd_map check_down_pgs now osd_map cs
  end.

(** The calls of [ops] one after the other, under the one lock. *)
Fixpoint run (ops : list op) (cs : ClusterState) : option ClusterState :=
  match ops with
  | [] => Some cs
  | o :: rest =>
      match step cs o with
      | Some cs' => run rest cs'
      | None => None
      end
  end.
End Runs.

(** What is asked of the two collaborators: they stage updates and leave
    the delta's target version as [notify_osdmap] set it. *)
Definition osd_check_keeps_version
    (f : OSDMap → PGMap → Incremental → Incremental) : Prop :=
  ∀ m pm inc, inc_version (f m pm inc) = inc_version inc.

Definition down_check_keeps_version
    (g : OSDMap → PGMap → bool → gset Z → Incremental → Incremental) : Prop :=
  ∀ m pm full osds inc, inc_version (g m pm full osds inc) = inc_version inc.

(** Collaborators that find nothing to stage. *)
Definition quiet_osd_check (m : OSDMap) (pm : PGMap) (inc : Incremental) : Incremental := inc.

Definition quiet_down_check (m : OSDMap) (pm : PGMap) (full : bool) (osds : gset Z)
    (inc : Incremental) : Incremental := inc.

(** ** Vocabulary of the statements *)

(** The version pair of [a] is strictly older than that of [b]. *)
Definition vp_lt (a b : pg_stat_t) : Prop :=
  reported_epoch a < reported_epoch b
  ∨ (reported_epoch a = reported_epoch b ∧ reported_seq a < reported_seq b).

(** What the pending delta holds for a PG, for a reporter; what the
    aggregate holds for a PG. *)
Definition staged (cs : ClusterState) (pgid : pg_t) : option pg_stat_t :=
  pg_stat_updates (pending_inc cs) !! pgid.

Definition staged_summary (cs : ClusterState) (osd : Z) : option osd_stat_t :=
  osd_stat_updates (pending_inc cs) !! osd.

Definition held (cs : ClusterState) (pgid : pg_t) : option pg_stat_t :=
  pg_stat (pg_map cs) !! pgid.

(** The sequence the output loop of [asok_command] walks. *)
Definition emitted (value : Z) (pm : PGMap) : list mgr_ping_time_t :=
  reverse (collect_sorted value pm).

(** The document a successful [dump_osd_network] flushes. *)
Definition report_doc (value : Z) (pm : PGMap) : list fmt_call :=
  network_ping_times value (flat_map dump_entry (emitted value pm)).

(** The items one turn of the inner loop offers to the set, in order. *)
Definition offered_peer (value : Z) (i : Z) (j : Z * Interfaces) : list mgr_ping_time_t :=
  (if over_threshold value (max3 (back_pingtime j.2))
   then [back_item i j.1 j.2] else [])
  ++ (if front_last j.2 =? 0 then []
      else if over_threshold value (max3 (front_pingtime j.2))
           then [front_item i j.1 j.2] else []).

Definition offered_osd (value : Z) (i : Z * osd_stat_t) : list mgr_ping_time_t :=
  flat_map (offered_peer value i.1) (map_entries (hb_pingtime i.2)).

Definition offered (value : Z) (pm : PGMap) : list mgr_ping_time_t :=
  flat_map (offered_osd value) (map_entries (osd_stat pm)).

(** [a < b] holds. *)
Definition ping_before (a b : mgr_ping_time_t) : Prop := ping_lt a b = true.

(** [emplace] of each of [items] in turn. *)
Definition emplace_all (sorted items : list mgr_ping_time_t) : list mgr_ping_time_t :=
  foldl (λ s x, set_emplace x s) sorted items.

(** Which heartbeat sample an item reports. *)
Definition item_key (e : mgr_ping_time_t) : Z * Z * bool := (from e, to e, back e).

(** The order of the emitted entries: larger rank key first; among equal
    rank keys larger [from] first, then larger [to] first, then the front
    interface before the back interface. *)
Definition emitted_before (a b : mgr_ping_time_t) : Prop :=
  pingtime b < pingtime a
  ∨ (pingtime a = pingtime b
     ∧ (from b < from a
        ∨ (from a = from b
           ∧ (to b < to a
              ∨ (to a = to b ∧ back a = false ∧ back b = true))))).

(** The order as the specification words it: larger rank key first; ties
    by ascending [from], then ascending [to], then back before front. *)
Definition specified_before (a b : mgr_ping_time_t) : Prop :=
  pingtime b < pingtime a
  ∨ (pingtime a = pingtime b
     ∧ (from a < from b
        ∨ (from a = from b
           ∧ (to a < to b
              ∨ (to a = to b ∧ back a = true ∧ back b = false))))).

Global Instance specified_before_dec a b : Decision (specified_before a b).
Proof. unfold specified_before. apply _. Defined.

Global Instance emitted_before_dec a b : Decision (emitted_before a b).
Proof. unfold emitted_before. apply _. Defined.

Global Instance vp_lt_dec a b : Decision (vp_lt a b).
Proof. unfold vp_lt. apply _. Defined.

(** The number of commits among [ops]. *)
Definition commits (ops : list op) : Z :=
  Z.of_nat (length (filter (λ o, is_commit o = true) ops)).

(** No cluster map arrives during [ops]. *)
Definition no_new_map (ops : list op) : Prop :=
  Forall (λ o, match o with NewMap _ _ => False | _ => True end) ops.

(** ** Sample data *)

Definition pg_1_3 : pg_t := mk_pg 1 3.

Definition no_pings : osd_stat_t := mk_osd_stat ∅.

(** Version pair (5,2), the older (5,1), and (5,2) again with another
    state. *)
Definition stats_5_2 : pg_stat_t := mk_pg_stat 5 2 10.
Definition stats_5_1 : pg_stat_t := mk_pg_stat 5 1 20.
Definition stats_5_2_bis : pg_stat_t := mk_pg_stat 5 2 30.

(** A report of OSD [osd] with the single entry [pg_1_3 ↦ s]. *)
Definition report_of (osd : Z) (s : pg_stat_t) : MPGStats :=
  mk_MPGStats osd 5 no_pings [(pg_1_3, s)].

(** Pool 1 exists and nothing has been reported yet. *)
Definition cs_pool1 : ClusterState :=
  {| pg_map := PGMap_new; pending_inc := Incremental_new; existing_pools := {[ 1 ]} |}.

(** Pool 1 exists and the aggregate holds [pg_1_3] at (5,2). *)
Definition cs_holding : ClusterState :=
  {| pg_map := {| version := 1; pg_stat := {[ pg_1_3 := stats_5_2 ]}; osd_stat := ∅ |};
     pending_inc := Incremental_new;
     existing_pools := {[ 1 ]} |}.

(** A cluster map whose only pool is pool 2. *)
Definition map_pool2 : OSDMap := mk_OSDMap {[ 2 := PoolInfo 0 ]}.

(** Heartbeat samples whose back and front windows both peak at 50; the
    front interface has been exercised. *)
Definition both_at_50 : Interfaces :=
  {| back_pingtime := mk_array3 50 40 30; back_min := mk_array3 1 1 1;
     back_max := mk_array3 60 60 60; back_last := 9;
     front_pingtime := mk_array3 20 50 5; front_min := mk_array3 2 2 2;
     front_max := mk_array3 70 70 70; front_last := 7 |}.

(** The specification's scenario: back windows 50, 40, 30, front windows
    20, 10, 5; neither interface has a last sample. *)
Definition never_sampled : Interfaces :=
  {| back_pingtime := mk_array3 50 40 30; back_min := mk_array3 1 1 1;
     back_max := mk_array3 60 60 60; back_last := 0;
     front_pingtime := mk_array3 20 10 5; front_min := mk_array3 2 2 2;
     front_max := mk_array3 70 70 70; front_last := 0 |}.

(** OSDs 1 and 3 each report their heartbeats towards OSD 2. *)
Definition pm_two_osds : PGMap :=
  {| version := 1; pg_stat := ∅;
     osd_stat := {[ 1 := mk_osd_stat {[ 2 := both_at_50 ]};
                    3 := mk_osd_stat {[ 2 := both_at_50 ]} ]} |}.

(** OSD 1 reports its heartbeats towards OSD 2. *)
Definition pm_never_sampled : PGMap :=
  {| version := 1; pg_stat := ∅;
     osd_stat := {[ 1 := mk_osd_stat {[ 2 := never_sampled ]} ]} |}.

(** A stand-in for the double arithmetic, with the ratio given in
    hundredths: [grace * (1000000 * ratio)]. *)
Definition scale_hundredths (grace : Z) (ratio : Z) : Z :=
  grace * (1000000 * ratio) `quot` 100.

(** No warning threshold configured, ratio 0.05, grace 20 s. *)
Definition conf_unset : Config Z :=
  {| mon_warn_on_slow_ping_time := 0;
     mon_warn_on_slow_ping_ratio := 5;
     osd_heartbeat_grace := 20 |}.

(** ** Double precision *)

(** [double] is IEEE 754 binary64: 53 bits of precision, results rounded
    to the nearest value, ties to even. *)
Definition binary64 : Type := SpecFloat.spec_float.

(** The conversion of an integer to [double]. *)
Definition double_of_int (z : Z) : binary64 :=
  SpecFloat.binary_normalize 53 1024 z 0 false.

(** [x * y] on [double]. *)
Definition double_mul (x y : binary64) : binary64 :=
  SpecFloat.SFmul 53 1024 x y.

(** The conversion of a [double] to [int64_t]: the fractional part is
    discarded; [None] where the language leaves the conversion undefined
    (the truncated value does not fit, an infinity, a NaN). *)
Definition int64_of_double (x : binary64) : option Z :=
  match x with
  | SpecFloat.S754_zero _ => Some 0
  | SpecFloat.S754_finite s m e =>
      let magnitude := Z.shiftl (Z.pos m) e in
      let z := if s then - magnitude else magnitude in
      if bool_decide (- 2 ^ 63 ≤ z < 2 ^ 63) then Some z else None
  | SpecFloat.S754_infinity _ | SpecFloat.S754_nan => None
  end.

(** [value *= 1000000 * ratio;] with [int64_t value] and [double ratio]:
    the literal is converted and multiplied by the ratio, [value] is
    converted and multiplied by that product, and the result is converted
    back. *)
Definition times_1000000_ratio (value : Z) (ratio : binary64) : option Z :=
  int64_of_double
    (double_mul (double_of_int value) (double_mul (double_of_int 1000000) ratio)).

(** [scale_by] is that statement wherever its result is defined. *)
Definition scale_by_is_double (scale_by : Z → binary64 → Z) : Prop :=
  ∀ value ratio usec,
    times_1000000_ratio value ratio = Some usec → scale_by value ratio = usec.

(** The statement, with zero standing where the result is undefined. *)
Definition scale_double (value : Z) (ratio : binary64) : Z :=
  default 0 (times_1000000_ratio value ratio).

(** The doubles nearest to 0.05 and to 0.29. *)
Definition ratio_0_05 : binary64 := SpecFloat.S754_finite false 7205759403792794 (-57).
Definition ratio_0_29 : binary64 := SpecFloat.S754_finite false 5224175567749775 (-54).

(** No warning threshold configured, ratio 0.05, grace 20 s. *)
Definition conf_defaults : Config binary64 :=
  {| mon_warn_on_slow_ping_time := 0;
     mon_warn_on_slow_ping_ratio := ratio_0_05;
     osd_heartbeat_grace := 20 |}.

(** ** Further vocabulary *)

(** Every PG the pending delta holds is of a pool in the filter. *)
Definition delta_within_filter (cs : ClusterState) : Prop :=
  ∀ pgid, is_Some (staged cs pgid) → m_pool pgid ∈ existing_pools cs.

(** No record the pending delta holds is older than the aggregate's
    record for the same PG. *)
Definition delta_not_older (cs : ClusterState) : Prop :=
  ∀ pgid s q, staged cs pgid = Some s → held cs pgid = Some q → ¬ vp_lt s q.

(** The nesting depth the formatter is at after [calls], from depth [d];
    [None] when a section is closed that was never opened or a value is
    dumped outside every section. *)
Fixpoint depth_after (d : nat) (calls : list fmt_call) : option nat :=
  match calls with
  | [] => Some d
  | c :: rest =>
      match c with
      | open_object_section _ | open_array_section _ => depth_after (S d) rest
      | close_section =>
          match d with
          | O => None
          | S d' => depth_after d' rest
          end
      | dump_int _ _ | dump_unsigned _ _ | dump_string _ _ =>
          match d with
          | O => None
          | S _ => depth_after d rest
          end
      end
  end.

(** An item as the loops build it: the rank key is the largest of the
    three windows it carries. *)
Definition item_built (e : mgr_ping_time_t) : Prop := pingtime e = max3 (times e).

(** A second PG of pool 1, and a report with a single entry for a given
    PG. *)
Definition pg_1_4 : pg_t := mk_pg 1 4.

Definition report_on (osd : Z) (pgid : pg_t) (s : pg_stat_t) : MPGStats :=
  mk_MPGStats osd 5 no_pings [(pgid, s)].

(** * Properties *)

(** ** Version pairs *)

Lemma pair_gt_vp_lt (q s : pg_stat_t) :
  pair_gt (get_version_pair q) (get_version_pair s) = true ↔ vp_lt s q.
Proof.
  unfold pair_gt, pair_lt, get_version_pair, vp_lt; simpl.
  destruct (Z.ltb_spec (reported_epoch s) (reported_epoch q)),
           (Z.ltb_spec (reported_epoch q) (reported_epoch s)),
           (Z.ltb_spec (reported_seq s) (reported_seq q)); simpl;
    split; intros; try done; try lia; auto with lia.
Qed.

Lemma heard_more_recent_true pm pgid s :
  heard_more_recent pm pgid s = true ↔
  ∃ q, pg_stat pm !! pgid = Some q ∧ vp_lt s q.
Proof.
  unfold heard_more_recent. destruct (pg_stat pm !! pgid) as [q|].
  - rewrite pair_gt_vp_lt. split; [eauto | by intros (? & [= <-] & ?)].
  - split; [done | by intros (? & ? & ?)].
Qed.

Lemma heard_more_recent_false pm pgid s :
  heard_more_recent pm pgid s = false ↔
  ∀ q, pg_stat pm !! pgid = Some q → ¬ vp_lt s q.
Proof.
  rewrite <- not_true_iff_false, heard_more_recent_true. split.
  - intros Hno q Hq Hlt. apply Hno. by exists q.
  - intros Hall (q & Hq & Hlt). by apply (Hall q).
Qed.

(** ** The staging loop *)

Section Loop.
Variable pools : gset Z.
Variable pm : PGMap.

Lemma ingest_pg_frame inc p :
  inc_version (ingest_pg pools pm inc p) = inc_version inc
  ∧ stamp (ingest_pg pools pm inc p) = stamp inc
  ∧ osd_stat_updates (ingest_pg pools pm inc p) = osd_stat_updates inc.
Proof. unfold ingest_pg. repeat case_match; done. Qed.

Lemma foldl_ingest_pg_frame l inc :
  inc_version (foldl (ingest_pg pools pm) inc l) = inc_version inc
  ∧ stamp (foldl (ingest_pg pools pm) inc l) = stamp inc
  ∧ osd_stat_updates (foldl (ingest_pg pools pm) inc l) = osd_stat_updates inc.
Proof.
  revert inc. induction l as [|p l IH]; intros inc; simpl; [done|].
  destruct (IH (ingest_pg pools pm inc p)) as (-> & -> & ->).
  apply ingest_pg_frame.
Qed.

(** A turn of the loop touches no PG but its own. *)
Lemma ingest_pg_other inc p pgid :
  p.1 ≠ pgid →
  pg_stat_updates (ingest_pg pools pm inc p) !! pgid = pg_stat_updates inc !! pgid.
Proof.
  intros Hne. unfold ingest_pg. repeat case_match; try done.
  simpl. by rewrite lookup_insert_ne.
Qed.

(** What a turn of the loop leaves for its own PG. *)
Lemma ingest_pg_self inc pgid s :
  pg_stat_updates (ingest_pg pools pm inc (pgid, s)) !! pgid =
  if bool_decide (m_pool pgid ∈ pools) && negb (heard_more_recent pm pgid s)
  then Some s else pg_stat_updates inc !! pgid.
Proof.
  unfold ingest_pg; simpl.
  case_bool_decide; simpl; [|done].
  destruct (heard_more_recent pm pgid s); simpl; [done|].
  by rewrite lookup_insert_eq.
Qed.

(** Entries of a pool outside the filter are skipped. *)
Lemma ingest_pg_no_pool inc p :
  m_pool p.1 ∉ pools → ingest_pg pools pm inc p = inc.
Proof. intros H. unfold ingest_pg. by rewrite bool_decide_eq_false_2. Qed.

Lemma foldl_ingest_pg_no_pool l inc pgid :
  m_pool pgid ∉ pools →
  pg_stat_updates (foldl (ingest_pg pools pm) inc l) !! pgid
  = pg_stat_updates inc !! pgid.
Proof.
  intros Hpool. revert inc. induction l as [|p l IH]; intros inc; simpl; [done|].
  rewrite IH. destruct (decide (p.1 = pgid)) as [Heq|Hne].
  - rewrite ingest_pg_no_pool; [done | by rewrite Heq].
  - by apply ingest_pg_other.
Qed.

Lemma foldl_ingest_pg_skip l inc pgid :
  pgid ∉ l.*1 →
  pg_stat_updates (foldl (ingest_pg pools pm) inc l) !! pgid
  = pg_stat_updates inc !! pgid.
Proof.
  revert inc. induction l as [|p l IH]; intros inc Hnot; simpl; [done|].
  rewrite fmap_cons, not_elem_of_cons in Hnot. destruct Hnot as [Hne Hnot].
  rewrite IH by done. by apply ingest_pg_other.
Qed.

(** With one entry per PG, as in a [std::map], the loop leaves for each
    entry what its own turn leaves. *)
Lemma foldl_ingest_pg_entry l inc pgid s :
  NoDup l.*1 → (pgid, s) ∈ l →
  pg_stat_updates (foldl (ingest_pg pools pm) inc l) !! pgid =
  if bool_decide (m_pool pgid ∈ pools) && negb (heard_more_recent pm pgid s)
  then Some s else pg_stat_updates inc !! pgid.
Proof.
  revert inc. induction l as [|p l IH]; intros inc Hnd Hin; simpl.
  - by apply elem_of_nil in Hin.
  - rewrite fmap_cons, NoDup_cons in Hnd. destruct Hnd as [Hfresh Hnd].
    apply elem_of_cons in Hin as [<- | Hin].
    + simpl in Hfresh. rewrite foldl_ingest_pg_skip by done.
      apply ingest_pg_self.
    + rewrite IH by done.
      assert (p.1 ≠ pgid) as Hne.
      { intros Heq. apply Hfresh. rewrite Heq.
        by apply (list_elem_of_fmap_2 fst l (pgid, s)). }
      by rewrite ingest_pg_other.
Qed.
End Loop.

(** ** Walking a map *)

Lemma map_entries_perm {V} (m : gmap Z V) : map_entries m ≡ₚ map_to_list m.
Proof. apply merge_sort_Permutation. Qed.

Lemma map_entries_ascending {V} (m : gmap Z V) :
  StronglySorted key_le (map_entries m).
Proof. apply StronglySorted_merge_sort; apply _. Qed.

Lemma elem_of_map_entries {V} (m : gmap Z V) k v :
  (k, v) ∈ map_entries m ↔ m !! k = Some v.
Proof. by rewrite map_entries_perm, elem_of_map_to_list. Qed.

Lemma NoDup_fst_map_entries {V} (m : gmap Z V) : NoDup (map_entries m).*1.
Proof. rewrite map_entries_perm. apply NoDup_fst_map_to_list. Qed.

Lemma pools_of_dom (m : OSDMap) : pools_of m = dom (get_pools m).
Proof.
  unfold pools_of.
  assert (∀ (l : list (Z * pg_pool_t)) (acc : gset Z),
    foldl (λ s p, {[ p.1 ]} ∪ s) acc l = list_to_set l.*1 ∪ acc) as Hfold.
  { induction l as [|p l IH]; intros acc; simpl.
    - set_solver.
    - rewrite IH. set_solver. }
  rewrite Hfold. apply leibniz_equiv.
  rewrite map_entries_perm, <- (dom_alt (get_pools m)). set_solver.
Qed.

(** ** The two commit paths *)

Lemma update_delta_stats_eq now cs :
  update_delta_stats now cs =
  Some {| pg_map := {| version := version (pg_map cs) + 1;
                       pg_stat := pg_stat_updates (pending_inc cs) ∪ pg_stat (pg_map cs);
                       osd_stat := osd_stat_updates (pending_inc cs) ∪ osd_stat (pg_map cs) |};
          pending_inc := Incremental_new;
          existing_pools := existing_pools cs |}.
Proof.
  unfold update_delta_stats, apply_incremental, prepare_inc; simpl.
  by rewrite bool_decide_eq_true_2.
Qed.

Lemma notify_osdmap_eq check_osd_map check_down_pgs now osd_map cs :
  osd_check_keeps_version check_osd_map →
  down_check_keeps_version check_down_pgs →
  let inc := check_down_pgs osd_map (pg_map cs) true ∅
               (check_osd_map osd_map (pg_map cs)
                  (prepare_inc now (pg_map cs) (pending_inc cs))) in
  notify_osdmap check_osd_map check_down_pgs now osd_map cs =
  Some {| pg_map := {| version := version (pg_map cs) + 1;
                       pg_stat := pg_stat_updates inc ∪ pg_stat (pg_map cs);
                       osd_stat := osd_stat_updates inc ∪ osd_stat (pg_map cs) |};
          pending_inc := Incremental_new;
          existing_pools := dom (get_pools osd_map) |}.
Proof.
  intros Hosd Hdown inc.
  assert (inc_version inc = version (pg_map cs) + 1) as Hv.
  { unfold inc. by rewrite Hdown, Hosd. }
  unfold notify_osdmap, apply_incremental. fold inc.
  rewrite bool_decide_eq_true_2 by done.
  by rewrite Hv, pools_of_dom.
Qed.

(** ** Reports *)

Lemma ingest_pgstats_pg_map cs stats : pg_map (ingest_pgstats cs stats) = pg_map cs.
Proof. done. Qed.

Lemma ingest_pgstats_existing_pools cs stats :
  existing_pools (ingest_pgstats cs stats) = existing_pools cs.
Proof. done. Qed.

Lemma ingest_pgstats_summaries cs stats :
  osd_stat_updates (pending_inc (ingest_pgstats cs stats))
  = <[orig_source_num stats := msg_osd_stat stats]> (osd_stat_updates (pending_inc cs)).
Proof.
  unfold ingest_pgstats; simpl.
  by destruct (foldl_ingest_pg_frame (existing_pools cs) (pg_map cs) (msg_pg_stat stats)
    (update_stat (orig_source_num stats) (msg_epoch stats) (msg_osd_stat stats)
       (pending_inc cs))) as (_ & _ & ->).
Qed.

Lemma ingest_pgstats_no_pool cs stats pgid :
  m_pool pgid ∉ existing_pools cs →
  staged (ingest_pgstats cs stats) pgid = staged cs pgid.
Proof.
  intros Hpool. unfold staged, ingest_pgstats; simpl.
  by rewrite foldl_ingest_pg_no_pool.
Qed.

Lemma ingest_pgstats_entry cs stats pgid s :
  NoDup (msg_pg_stat stats).*1 → (pgid, s) ∈ msg_pg_stat stats →
  staged (ingest_pgstats cs stats) pgid =
  if bool_decide (m_pool pgid ∈ existing_pools cs)
     && negb (heard_more_recent (pg_map cs) pgid s)
  then Some s else staged cs pgid.
Proof.
  intros Hnd Hin. unfold staged, ingest_pgstats; simpl.
  by rewrite (foldl_ingest_pg_entry _ _ _ _ pgid s).
Qed.

Lemma foldl_ingest_pgstats_frame (reports : list MPGStats) cs :
  pg_map (foldl ingest_pgstats cs reports) = pg_map cs
  ∧ existing_pools (foldl ingest_pgstats cs reports) = existing_pools cs.
Proof.
  revert cs. induction reports as [|m l IH]; intros cs; simpl; [done|].
  by destruct (IH (ingest_pgstats cs m)) as [-> ->].
Qed.

Lemma foldl_ingest_pgstats_no_pool (reports : list MPGStats) cs pgid :
  m_pool pgid ∉ existing_pools cs →
  staged (foldl ingest_pgstats cs reports) pgid = staged cs pgid.
Proof.
  revert cs. induction reports as [|m l IH]; intros cs Hpool; simpl; [done|].
  rewrite IH by done. by apply ingest_pgstats_no_pool.
Qed.

(** ** Stale reports *)

(** C1, as the code has it.  For an entry of a report whose pool passes
    the existence filter: it is dropped (the pending delta keeps what it
    had for that PG) when the aggregate holds the PG with a version pair
    strictly greater than the incoming one, and it is staged otherwise —
    in particular when the two version pairs are equal. *)
Theorem stale_entry_dropped_iff_strictly_older cs stats pgid s :
  NoDup (msg_pg_stat stats).*1 →
  (pgid, s) ∈ msg_pg_stat stats →
  m_pool pgid ∈ existing_pools cs →
  ((∃ q, held cs pgid = Some q ∧ vp_lt s q) →
     staged (ingest_pgstats cs stats) pgid = staged cs pgid)
  ∧ ((∀ q, held cs pgid = Some q → ¬ vp_lt s q) →
     staged (ingest_pgstats cs stats) pgid = Some s)
  ∧ ((∃ q, held cs pgid = Some q ∧ get_version_pair q = get_version_pair s) →
     staged (ingest_pgstats cs stats) pgid = Some s).
Proof.
  intros Hnd Hin Hpool.
  rewrite (ingest_pgstats_entry cs stats pgid s Hnd Hin).
  rewrite bool_decide_eq_true_2 by done. simpl.
  split; [|split].
  - intros Hq. apply heard_more_recent_true in Hq. unfold held in *. by rewrite Hq.
  - intros Hq. apply heard_more_recent_false in Hq. by rewrite Hq.
  - intros (q & Hq & Heq).
    assert (heard_more_recent (pg_map cs) pgid s = false) as ->; [|done].
    apply heard_more_recent_false. intros q' Hq'. unfold held in Hq.
    rewrite Hq in Hq'. injection Hq' as <-.
    unfold get_version_pair in Heq. injection Heq as He Hs.
    unfold vp_lt. lia.
Qed.

(** The aggregate holds [pg_1_3] at (5,2); a report with the same pair
    and another state is staged. *)
Lemma stale_entry_witness :
  staged (ingest_pgstats cs_holding (report_of 0 stats_5_2_bis)) pg_1_3
  = Some stats_5_2_bis.
Proof.
  refine (proj2 (proj2 (stale_entry_dropped_iff_strictly_older
            cs_holding (report_of 0 stats_5_2_bis) pg_1_3 stats_5_2_bis _ _ _)) _).
  - apply NoDup_singleton.
  - apply list_elem_of_singleton. reflexivity.
  - apply (bool_decide_unpack _). vm_compute. exact I.
  - exists stats_5_2. split; reflexivity.
Defined.

(** C1 as the specification words it fails: the stored pair is greater
    than or equal to the incoming one, the pool exists, and the entry is
    staged all the same. *)
Lemma equal_version_pair_is_staged :
  held cs_holding pg_1_3 = Some stats_5_2
  ∧ pair_lt (get_version_pair stats_5_2) (get_version_pair stats_5_2_bis) = false
  ∧ bool_decide (m_pool pg_1_3 ∈ existing_pools cs_holding) = true
  ∧ staged cs_holding pg_1_3 = None
  ∧ staged (ingest_pgstats cs_holding (report_of 0 stats_5_2_bis)) pg_1_3
    = Some stats_5_2_bis.
Proof. repeat split; vm_compute; reflexivity. Qed.

(** ** Reporter summaries *)

(** C9.  Whatever becomes of the per-PG entries, the reporter's summary
    is staged under the reporter's id; with an empty existence filter no
    entry is staged, and on the state the constructor leaves the pending
    delta holds the summary and nothing else. *)
Theorem summary_staged_unconditionally :
  (∀ cs stats,
     staged_summary (ingest_pgstats cs stats) (orig_source_num stats)
     = Some (msg_osd_stat stats))
  ∧ (∀ cs stats,
       existing_pools cs = ∅ →
       pg_stat_updates (pending_inc (ingest_pgstats cs stats))
       = pg_stat_updates (pending_inc cs))
  ∧ (∀ stats,
       pg_stat_updates (pending_inc (ingest_pgstats ClusterState_new stats)) = ∅
       ∧ osd_stat_updates (pending_inc (ingest_pgstats ClusterState_new stats))
         = {[ orig_source_num stats := msg_osd_stat stats ]}).
Proof.
  assert (∀ cs stats, existing_pools cs = ∅ →
    pg_stat_updates (pending_inc (ingest_pgstats cs stats))
    = pg_stat_updates (pending_inc cs)) as Hempty.
  { intros cs stats Hnone. apply map_eq. intros pgid.
    apply (ingest_pgstats_no_pool cs stats pgid). rewrite Hnone. set_solver. }
  split; [|split].
  - intros cs stats. unfold staged_summary.
    rewrite ingest_pgstats_summaries. apply lookup_insert_eq.
  - exact Hempty.
  - intros stats. split.
    + by rewrite Hempty.
    + by rewrite ingest_pgstats_summaries.
Qed.

(** ** Runs *)

Section RunFacts.
Variable check_osd_map : OSDMap → PGMap → Incremental → Incremental.
Variable check_down_pgs : OSDMap → PGMap → bool → gset Z → Incremental → Incremental.
Hypothesis osd_keeps : osd_check_keeps_version check_osd_map.
Hypothesis down_keeps : down_check_keeps_version check_down_pgs.

Local Abbreviation step' := (step check_osd_map check_down_pgs).
Local Abbreviation run' := (run check_osd_map check_down_pgs).

(** Every call returns, and the version moves by one exactly at the
    commits. *)
Lemma step_version cs o :
  ∃ cs', step' cs o = Some cs'
    ∧ version (pg_map cs') = version (pg_map cs) + (if is_commit o then 1 else 0).
Proof.
  destruct o as [stats | now | now osd_map]; simpl.
  - eexists. split; [done|]. simpl. lia.
  - rewrite update_delta_stats_eq. eexists. split; [done|]. done.
  - rewrite notify_osdmap_eq by done. eexists. split; [done|]. done.
Qed.

Lemma commits_cons o ops :
  commits (o :: ops) = (if is_commit o then 1 else 0) + commits ops.
Proof.
  unfold commits. rewrite filter_cons.
  destruct (is_commit o); case_decide; simpl length; try done; lia.
Qed.

Lemma run_version ops cs :
  ∃ cs', run' ops cs = Some cs'
    ∧ version (pg_map cs') = version (pg_map cs) + commits ops.
Proof.
  revert cs. induction ops as [|o ops IH]; intros cs.
  - exists cs. split; [done|]. unfold commits. simpl. lia.
  - destruct (step_version cs o) as (cs1 & Hstep & Hv1).
    destruct (IH cs1) as (cs2 & Hrun & Hv2).
    exists cs2. simpl. rewrite Hstep, Hrun. split; [done|].
    rewrite commits_cons. lia.
Qed.

End RunFacts.

(** ** Versions *)

(** C4.  Whatever the calls, each returns, and the aggregate's version
    after them is the version before plus the number of commits among
    them: a report leaves it, a commit adds exactly one. *)
Theorem version_counts_commits check_osd_map check_down_pgs ops cs :
  osd_check_keeps_version check_osd_map →
  down_check_keeps_version check_down_pgs →
  ∃ cs', run check_osd_map check_down_pgs ops cs = Some cs'
    ∧ version (pg_map cs') = version (pg_map cs) + commits ops.
Proof. intros. by apply run_version. Qed.

(** A report, a tick, a report, a new map, a tick: three commits. *)
Lemma version_counts_commits_witness :
  ∃ cs', run quiet_osd_check quiet_down_check
           [Report (report_of 0 stats_5_1); Tick 1; Report (report_of 1 stats_5_2);
            NewMap 2 map_pool2; Tick 3] cs_pool1 = Some cs'
    ∧ version (pg_map cs') = version (pg_map cs_pool1) + 3.
Proof.
  refine (version_counts_commits quiet_osd_check quiet_down_check
            [Report (report_of 0 stats_5_1); Tick 1; Report (report_of 1 stats_5_2);
             NewMap 2 map_pool2; Tick 3] cs_pool1 _ _).
  - intros m pm inc. reflexivity.
  - intros m pm full osds inc. reflexivity.
Defined.

(** ** The existence filter *)



(** ** Cluster maps *)

(** C5, as the code has it.  [notify_osdmap] rebuilds the filter, lets
    the collaborators stage, and then commits itself: the version is one
    more, what the delta held is folded into the aggregate, and the
    pending delta is a fresh one. *)
Theorem notify_osdmap_commits check_osd_map check_down_pgs now osd_map cs :
  osd_check_keeps_version check_osd_map →
  down_check_keeps_version check_down_pgs →
  ∃ cs' inc,
    notify_osdmap check_osd_map check_down_pgs now osd_map cs = Some cs'
    ∧ inc = check_down_pgs osd_map (pg_map cs) true ∅
              (check_osd_map osd_map (pg_map cs)
                 (prepare_inc now (pg_map cs) (pending_inc cs)))
    ∧ version (pg_map cs') = version (pg_map cs) + 1
    ∧ pg_stat (pg_map cs') = pg_stat_updates inc ∪ pg_stat (pg_map cs)
    ∧ osd_stat (pg_map cs') = osd_stat_updates inc ∪ osd_stat (pg_map cs)
    ∧ pending_inc cs' = Incremental_new
    ∧ existing_pools cs' = dom (get_pools osd_map).
Proof.
  intros Hosd Hdown. rewrite notify_osdmap_eq by done.
  eexists. eexists. split; [done|]. split; [done|]. done.
Qed.

Lemma notify_osdmap_commits_witness :
  ∃ cs' inc,
    notify_osdmap quiet_osd_check quiet_down_check 7 map_pool2
      (ingest_pgstats cs_pool1 (report_of 0 stats_5_2)) = Some cs'
    ∧ inc = quiet_down_check map_pool2 PGMap_new true ∅
              (quiet_osd_check map_pool2 PGMap_new
                 (prepare_inc 7 PGMap_new
                    (pending_inc (ingest_pgstats cs_pool1 (report_of 0 stats_5_2)))))
    ∧ version (pg_map cs') = 0 + 1
    ∧ pg_stat (pg_map cs') = pg_stat_updates inc ∪ ∅
    ∧ osd_stat (pg_map cs') = osd_stat_updates inc ∪ ∅
    ∧ pending_inc cs' = Incremental_new
    ∧ existing_pools cs' = dom (get_pools map_pool2).
Proof.
  refine (notify_osdmap_commits quiet_osd_check quiet_down_check 7 map_pool2
            (ingest_pgstats cs_pool1 (report_of 0 stats_5_2)) _ _).
  - intros m pm inc. reflexivity.
  - intros m pm full osds inc. reflexivity.
Defined.

(** C5 as the specification words it fails: a report is pending, a
    cluster map arrives, and on return the version has moved from 0 to 1
    and the report is in the aggregate. *)
Lemma notify_osdmap_moves_version :
  ∃ cs',
    notify_osdmap quiet_osd_check quiet_down_check 7 map_pool2
      (ingest_pgstats cs_pool1 (report_of 0 stats_5_2)) = Some cs'
    ∧ version (pg_map (ingest_pgstats cs_pool1 (report_of 0 stats_5_2))) = 0
    ∧ version (pg_map cs') = 1
    ∧ held (ingest_pgstats cs_pool1 (report_of 0 stats_5_2)) pg_1_3 = None
    ∧ held cs' pg_1_3 = Some stats_5_2
    ∧ osd_stat (pg_map (ingest_pgstats cs_pool1 (report_of 0 stats_5_2))) !! 0 = None
    ∧ osd_stat (pg_map cs') !! 0 = Some no_pings.
Proof.
  rewrite notify_osdmap_eq by (intros ?; reflexivity).
  eexists. split; [reflexivity|]. repeat split; vm_compute; reflexivity.
Qed.

(** ** Delivery order *)

Lemma Incremental_eq (a b : Incremental) :
  inc_version a = inc_version b → stamp a = stamp b →
  pg_stat_updates a = pg_stat_updates b →
  osd_stat_updates a = osd_stat_updates b → a = b.
Proof. destruct a, b; simpl; intros; by subst. Qed.

(** For each PG the loop either settles what the delta holds, whatever it
    held before, or leaves what it held. *)
Lemma foldl_ingest_pg_settles pools pm l pgid :
  (∃ s, ∀ inc, pg_stat_updates (foldl (ingest_pg pools pm) inc l) !! pgid = Some s)
  ∨ (∀ inc, pg_stat_updates (foldl (ingest_pg pools pm) inc l) !! pgid
            = pg_stat_updates inc !! pgid).
Proof.
  induction l as [|[k s] l IH]; simpl; [by right|].
  destruct IH as [[s' Hs'] | Hpass]; [left; by exists s'|].
  destruct (decide (k = pgid)) as [->|Hne].
  - destruct (bool_decide (m_pool pgid ∈ pools)
              && negb (heard_more_recent pm pgid s)) eqn:Hadm.
    + left. exists s. intros inc. by rewrite Hpass, ingest_pg_self, Hadm.
    + right. intros inc. by rewrite Hpass, ingest_pg_self, Hadm.
  - right. intros inc. rewrite Hpass. by apply ingest_pg_other.
Qed.







(** ** The comparison of [mgr_ping_time_t] *)

Lemma ping_lt_true a b :
  ping_lt a b = true ↔
  pingtime a < pingtime b
  ∨ (pingtime a = pingtime b
     ∧ (from a < from b
        ∨ (from a = from b
           ∧ (to a < to b ∨ (to a = to b ∧ back a = true))))).
Proof.
  unfold ping_lt.
  destruct (Z.ltb_spec (pingtime a) (pingtime b)); [split; [auto | done]|].
  destruct (Z.gtb_spec (pingtime a) (pingtime b)); [split; [done | lia]|].
  destruct (Z.ltb_spec (from a) (from b)); [split; [intros _; right; lia | done]|].
  destruct (Z.gtb_spec (from a) (from b)); [split; [done | lia]|].
  destruct (Z.ltb_spec (to a) (to b)); [split; [intros _; right; lia | done]|].
  destruct (Z.gtb_spec (to a) (to b)); [split; [done | lia]|].
  split.
  - intros Hb. right. split; [lia|]. right. split; [lia|]. right. split; [lia|done].
  - intros [?|[_ [?|[_ [?|[_ Hb]]]]]]; try lia. done.
Qed.

(** When the operands agree on [pingtime], [from] and [to], the result is
    the left operand's [back]. *)
Lemma ping_lt_same_sample a b :
  pingtime a = pingtime b → from a = from b → to a = to b →
  ping_lt a b = back a.
Proof.
  intros Hp Hf Ht. unfold ping_lt. rewrite Hp, Hf, Ht.
  by rewrite !Z.gtb_ltb, !Z.ltb_irrefl.
Qed.

Lemma ping_lt_trans a b c :
  ping_lt a b = true → ping_lt b c = true → ping_lt a c = true.
Proof.
  rewrite !ping_lt_true.
  intros [?|[? [?|[? [?|[? Hb]]]]]] [?|[? [?|[? [?|[? ?]]]]]];
    first [ left; lia
          | right; split; [lia|]; left; lia
          | right; split; [lia|]; right; split; [lia|]; left; lia
          | right; split; [lia|]; right; split; [lia|]; right; split; [lia|done] ].
Qed.

(** A back item is ordered against every item, itself included. *)
Lemma ping_lt_back_total a b :
  back a = true → ping_lt a b = false → ping_lt b a = true.
Proof.
  intros Hb Hab. apply not_true_iff_false in Hab.
  rewrite ping_lt_true in Hab. rewrite ping_lt_true.
  destruct (Z.lt_trichotomy (pingtime a) (pingtime b)) as [?|[?|?]];
    [exfalso; apply Hab; by left | | by left].
  destruct (Z.lt_trichotomy (from a) (from b)) as [?|[?|?]];
    [exfalso; apply Hab; right; split; [done|]; by left | |
     right; split; [lia|]; left; lia].
  destruct (Z.lt_trichotomy (to a) (to b)) as [?|[?|?]];
    [exfalso; apply Hab; right; split; [done|]; right; split; [done|]; by left | |
     right; split; [lia|]; right; split; [lia|]; left; lia].
  exfalso. apply Hab. right. split; [done|]. right. split; [done|]. by right.
Qed.

(** Two items block one another only when both are front items of the
    same pair with the same rank key. *)
Lemma ping_lt_equivalent a b :
  ping_lt a b = false → ping_lt b a = false →
  pingtime a = pingtime b ∧ from a = from b ∧ to a = to b
  ∧ back a = false ∧ back b = false.
Proof.
  intros Hab Hba. apply not_true_iff_false in Hab, Hba.
  rewrite ping_lt_true in Hab, Hba.
  assert (pingtime a = pingtime b) as Hp.
  { destruct (Z.lt_trichotomy (pingtime a) (pingtime b)) as [?|[?|?]];
      [exfalso; apply Hab; by left | done | exfalso; apply Hba; by left]. }
  assert (from a = from b) as Hf.
  { destruct (Z.lt_trichotomy (from a) (from b)) as [?|[?|?]];
      [exfalso; apply Hab | done | exfalso; apply Hba];
      right; (split; [lia|]); by left. }
  assert (to a = to b) as Ht.
  { destruct (Z.lt_trichotomy (to a) (to b)) as [?|[?|?]];
      [exfalso; apply Hab | done | exfalso; apply Hba];
      right; (split; [lia|]); right; (split; [lia|]); by left. }
  repeat split; try done.
  - destruct (back a); [|done]. exfalso. apply Hab.
    right. split; [done|]. right. split; [done|]. by right.
  - destruct (back b); [|done]. exfalso. apply Hba.
    right. split; [lia|]. right. split; [lia|]. right. split; [lia|done].
Qed.

(** ** The sorted set *)

Lemma elem_of_set_emplace_inv z x l :
  z ∈ set_emplace x l → z = x ∨ z ∈ l.
Proof.
  induction l as [|y l IH]; simpl.
  - rewrite list_elem_of_singleton. auto.
  - destruct (ping_lt x y); [|destruct (ping_lt y x)]; rewrite ?elem_of_cons.
    + tauto.
    + intros [->|Hz]; [auto|]. destruct (IH Hz); auto.
    + tauto.
Qed.

Lemma elem_of_set_emplace_old z x l :
  z ∈ l → z ∈ set_emplace x l.
Proof.
  induction l as [|y l IH]; simpl.
  - intros Hz. by apply elem_of_nil in Hz.
  - destruct (ping_lt x y); [|destruct (ping_lt y x)]; rewrite ?elem_of_cons; tauto.
Qed.

(** Nothing blocks a back item. *)
Lemma elem_of_set_emplace_back x l :
  back x = true → x ∈ set_emplace x l.
Proof.
  intros Hb. induction l as [|y l IH]; simpl.
  - by apply list_elem_of_singleton.
  - destruct (ping_lt x y) eqn:Hxy; [apply elem_of_cons; by left|].
    rewrite (ping_lt_back_total x y Hb Hxy). apply elem_of_cons. by right.
Qed.

(** A front item is blocked only by a front item of the same pair. *)
Lemma elem_of_set_emplace_new x l :
  item_key x ∉ item_key <$> l → x ∈ set_emplace x l.
Proof.
  induction l as [|y l IH]; simpl; intros Hnew.
  - by apply list_elem_of_singleton.
  - rewrite not_elem_of_cons in Hnew. destruct Hnew as [Hne Hnew].
    destruct (ping_lt x y) eqn:Hxy; [apply elem_of_cons; by left|].
    destruct (ping_lt y x) eqn:Hyx; [apply elem_of_cons; right; by apply IH|].
    destruct (ping_lt_equivalent x y Hxy Hyx) as (_ & Hf & Ht & Hbx & Hby).
    exfalso. apply Hne. unfold item_key. by rewrite Hf, Ht, Hbx, Hby.
Qed.

Lemma set_emplace_submseteq x l : set_emplace x l ⊆+ x :: l.
Proof.
  induction l as [|y l IH]; simpl; [done|].
  destruct (ping_lt x y); [done|]. destruct (ping_lt y x).
  - rewrite (Permutation_swap y x l). by apply submseteq_skip.
  - by apply submseteq_cons.
Qed.

Lemma set_emplace_sorted x l :
  StronglySorted ping_before l → StronglySorted ping_before (set_emplace x l).
Proof.
  induction l as [|y l IH]; simpl; intros Hl.
  - repeat constructor.
  - apply StronglySorted_inv in Hl as [Hl Hy].
    destruct (ping_lt x y) eqn:Hxy.
    + constructor; [by constructor|]. constructor; [done|].
      eapply Forall_impl; [exact Hy|]. intros z Hyz.
      by apply (ping_lt_trans x y z).
    + destruct (ping_lt y x) eqn:Hyx; [|by constructor].
      constructor; [by apply IH|].
      apply Forall_forall. intros z Hz.
      apply elem_of_set_emplace_inv in Hz as [->|Hz]; [done|].
      by apply (proj1 (Forall_forall _ _) Hy).
Qed.

(** ** The two loops as one sequence of insertions *)

Lemma emplace_all_app sorted l1 l2 :
  emplace_all sorted (l1 ++ l2) = emplace_all (emplace_all sorted l1) l2.
Proof. apply foldl_app. Qed.

Lemma scan_peer_offered value i sorted j :
  scan_peer value i sorted j = emplace_all sorted (offered_peer value i j).
Proof.
  unfold scan_peer, offered_peer, emplace_all.
  repeat case_match; done.
Qed.

Lemma scan_osd_offered value sorted i :
  scan_osd value sorted i = emplace_all sorted (offered_osd value i).
Proof.
  unfold scan_osd, offered_osd.
  generalize (map_entries (hb_pingtime i.2)). intros l. revert sorted.
  induction l as [|j l IH]; intros sorted; simpl; [done|].
  by rewrite IH, scan_peer_offered, emplace_all_app.
Qed.

Lemma collect_sorted_offered value pm :
  collect_sorted value pm = emplace_all [] (offered value pm).
Proof.
  unfold collect_sorted, offered.
  generalize (map_entries (osd_stat pm)). intros l.
  generalize (@nil mgr_ping_time_t). induction l as [|i l IH]; intros sorted; simpl; [done|].
  by rewrite IH, scan_osd_offered, emplace_all_app.
Qed.

Lemma emplace_all_sorted sorted items :
  StronglySorted ping_before sorted →
  StronglySorted ping_before (emplace_all sorted items).
Proof.
  revert sorted. induction items as [|x items IH]; intros sorted Hs; simpl; [done|].
  by apply IH, set_emplace_sorted.
Qed.

Lemma emplace_all_inv sorted items z :
  z ∈ emplace_all sorted items → z ∈ sorted ∨ z ∈ items.
Proof.
  revert sorted. induction items as [|x items IH]; intros sorted; simpl; [auto|].
  intros Hz. apply IH in Hz as [Hz|Hz]; [|right; apply elem_of_cons; auto].
  apply elem_of_set_emplace_inv in Hz as [->|Hz]; [|auto].
  right. apply elem_of_cons. auto.
Qed.

Lemma emplace_all_old sorted items z :
  z ∈ sorted → z ∈ emplace_all sorted items.
Proof.
  revert sorted. induction items as [|x items IH]; intros sorted Hz; simpl; [done|].
  by apply IH, elem_of_set_emplace_old.
Qed.

Lemma emplace_all_back sorted items z :
  z ∈ items → back z = true → z ∈ emplace_all sorted items.
Proof.
  revert sorted. induction items as [|x items IH]; intros sorted Hz Hb; simpl.
  - by apply elem_of_nil in Hz.
  - apply elem_of_cons in Hz as [->|Hz]; [|by apply IH].
    by apply emplace_all_old, elem_of_set_emplace_back.
Qed.

Lemma emplace_all_submseteq sorted items :
  emplace_all sorted items ⊆+ sorted ++ items.
Proof.
  revert sorted. induction items as [|x items IH]; intros sorted; simpl.
  - by rewrite app_nil_r.
  - etrans; [apply IH|].
    rewrite <- (Permutation_middle sorted items x).
    apply (submseteq_app _ (x :: sorted) _ items); [|done].
    apply set_emplace_submseteq.
Qed.

Lemma submseteq_keeps_NoDup {A} (l k : list A) : l ⊆+ k → NoDup k → NoDup l.
Proof.
  induction 1 as [|x l k Hlk IH|x y l|x l k Hlk IH|l k m _ IH1 _ IH2].
  - done.
  - rewrite !NoDup_cons. intros [Hx Hk]. split; [|by apply IH].
    intros Hin. apply Hx. by apply (elem_of_submseteq l k).
  - rewrite !NoDup_cons, !not_elem_of_cons. naive_solver.
  - rewrite NoDup_cons. intros [_ Hk]. by apply IH.
  - auto.
Qed.

Lemma emplace_all_new sorted items z :
  NoDup (item_key <$> sorted ++ items) → z ∈ items → z ∈ emplace_all sorted items.
Proof.
  revert sorted. induction items as [|x items IH]; intros sorted Hnd Hz; simpl.
  - by apply elem_of_nil in Hz.
  - assert (NoDup (item_key <$> set_emplace x sorted ++ items)) as Hnd'.
    { eapply submseteq_keeps_NoDup; [|exact Hnd]. apply fmap_submseteq.
      rewrite <- (Permutation_middle sorted items x).
      apply (submseteq_app _ (x :: sorted) _ items); [|done].
      apply set_emplace_submseteq. }
    apply elem_of_cons in Hz as [->|Hz]; [|by apply IH].
    apply emplace_all_old, elem_of_set_emplace_new.
    rewrite fmap_app, fmap_cons in Hnd.
    apply NoDup_app in Hnd as (_ & Hdisj & Hx).
    intros Hin. apply (Hdisj _ Hin). apply elem_of_cons. by left.
Qed.

(** ** What the loops offer to the set *)

Lemma elem_of_flat_map {A B} (f : A → list B) (l : list A) (y : B) :
  y ∈ flat_map f l ↔ ∃ x, x ∈ l ∧ y ∈ f x.
Proof.
  rewrite list_elem_of_In, in_flat_map.
  split; intros (x & Hx & Hy); exists x; by rewrite ?list_elem_of_In in *.
Qed.

(** Items built from distinct map entries report distinct samples. *)
Lemma NoDup_flat_map_by_key {V B K} (f : Z * V → list B) (key : B → K)
    (owner : K → Z) (l : list (Z * V)) :
  NoDup l.*1 →
  (∀ x, NoDup (key <$> f x)) →
  (∀ x b, b ∈ f x → owner (key b) = x.1) →
  NoDup (key <$> flat_map f l).
Proof.
  intros Hnd Hf Hown. induction l as [|x l IH]; simpl; [constructor|].
  rewrite fmap_cons, NoDup_cons in Hnd. destruct Hnd as [Hx Hnd].
  rewrite fmap_app. apply NoDup_app. split; [apply Hf|]. split; [|by apply IH].
  intros k Hk1 Hk2.
  apply list_elem_of_fmap in Hk1 as (b1 & -> & Hb1).
  apply list_elem_of_fmap in Hk2 as (b2 & Heq & Hb2).
  apply elem_of_flat_map in Hb2 as (y & Hy & Hb2).
  apply Hx. apply list_elem_of_fmap. exists y. split; [|done].
  by rewrite <- (Hown x b1 Hb1), Heq, (Hown y b2 Hb2).
Qed.

Lemma elem_of_offered_peer value i j e :
  e ∈ offered_peer value i j ↔
  (e = back_item i j.1 j.2
   ∧ over_threshold value (max3 (back_pingtime j.2)) = true)
  ∨ (e = front_item i j.1 j.2
     ∧ front_last j.2 ≠ 0
     ∧ over_threshold value (max3 (front_pingtime j.2)) = true).
Proof.
  unfold offered_peer. rewrite elem_of_app.
  destruct (over_threshold value (max3 (back_pingtime j.2)));
    destruct (Z.eqb_spec (front_last j.2) 0);
    destruct (over_threshold value (max3 (front_pingtime j.2)));
    rewrite ?list_elem_of_singleton, ?elem_of_nil; naive_solver.
Qed.

Lemma NoDup_offered_peer value i j :
  NoDup (item_key <$> offered_peer value i j).
Proof.
  unfold offered_peer.
  destruct (over_threshold value (max3 (back_pingtime j.2)));
    destruct (front_last j.2 =? 0);
    destruct (over_threshold value (max3 (front_pingtime j.2))); simpl;
    repeat constructor; rewrite ?list_elem_of_singleton, ?elem_of_nil;
    unfold item_key; simpl; congruence.
Qed.

Lemma elem_of_offered value pm e :
  e ∈ offered value pm ↔
  ∃ i os j x,
    osd_stat pm !! i = Some os ∧ hb_pingtime os !! j = Some x
    ∧ ((e = back_item i j x
        ∧ over_threshold value (max3 (back_pingtime x)) = true)
       ∨ (e = front_item i j x
          ∧ front_last x ≠ 0
          ∧ over_threshold value (max3 (front_pingtime x)) = true)).
Proof.
  unfold offered, offered_osd. rewrite elem_of_flat_map. split.
  - intros ([i os] & Hi & He). apply elem_of_map_entries in Hi.
    apply elem_of_flat_map in He as ([j x] & Hj & He).
    apply elem_of_map_entries in Hj. apply elem_of_offered_peer in He.
    by exists i, os, j, x.
  - intros (i & os & j & x & Hi & Hj & He).
    exists (i, os). split; [by apply elem_of_map_entries|].
    apply elem_of_flat_map. exists (j, x). split; [by apply elem_of_map_entries|].
    by apply elem_of_offered_peer.
Qed.

Lemma NoDup_offered value pm : NoDup (item_key <$> offered value pm).
Proof.
  unfold offered.
  apply (NoDup_flat_map_by_key _ item_key (λ k, k.1.1)).
  - apply NoDup_fst_map_entries.
  - intros [i os]. unfold offered_osd.
    apply (NoDup_flat_map_by_key _ item_key (λ k, k.1.2)).
    + apply NoDup_fst_map_entries.
    + intros j. apply NoDup_offered_peer.
    + intros j b Hb. apply elem_of_offered_peer in Hb as [[-> _]|[-> _]]; done.
  - intros [i os] b Hb. unfold offered_osd in Hb.
    apply elem_of_flat_map in Hb as (j & _ & Hb).
    apply elem_of_offered_peer in Hb as [[-> _]|[-> _]]; done.
Qed.

Lemma offered_over_threshold value pm e :
  e ∈ offered value pm → over_threshold value (pingtime e) = true.
Proof.
  rewrite elem_of_offered.
  intros (i & os & j & x & _ & _ & [[-> H]|[-> [_ H]]]); done.
Qed.

(** ** The emitted sequence *)

Lemma elem_of_emitted value pm e :
  e ∈ emitted value pm ↔ e ∈ offered value pm.
Proof.
  unfold emitted. rewrite elem_of_reverse, collect_sorted_offered. split.
  - intros He. apply emplace_all_inv in He as [He|He]; [|done].
    by apply elem_of_nil in He.
  - apply emplace_all_new. simpl. apply NoDup_offered.
Qed.

Lemma NoDup_emitted_keys value pm : NoDup (item_key <$> emitted value pm).
Proof.
  unfold emitted. rewrite fmap_reverse, reverse_Permutation.
  rewrite collect_sorted_offered.
  eapply submseteq_keeps_NoDup; [|apply (NoDup_offered value pm)].
  apply fmap_submseteq. apply (emplace_all_submseteq [] (offered value pm)).
Qed.

Lemma collect_sorted_sorted value pm :
  StronglySorted ping_before (collect_sorted value pm).
Proof.
  rewrite collect_sorted_offered. apply emplace_all_sorted. constructor.
Qed.

(** The assertion of the output loop never fails. *)
Lemma dump_entries_total value l :
  Forall (λ e, over_threshold value (pingtime e) = true) l →
  dump_entries value l = Some (flat_map dump_entry l).
Proof.
  induction 1 as [|e l He _ IH]; simpl; [done|]. by rewrite He, IH.
Qed.

Lemma dump_emitted value pm :
  dump_entries value (emitted value pm) = Some (flat_map dump_entry (emitted value pm)).
Proof.
  apply dump_entries_total, Forall_forall. intros e He.
  by apply (offered_over_threshold value pm), elem_of_emitted.
Qed.

Lemma StronglySorted_distinct {A K} (R : relation A) (key : A → K) (l : list A) :
  StronglySorted R l → NoDup (key <$> l) →
  StronglySorted (λ a b, R a b ∧ key a ≠ key b) l.
Proof.
  induction 1 as [|x l Hl IH Hx]; intros Hnd; [constructor|].
  rewrite fmap_cons, NoDup_cons in Hnd. destruct Hnd as [Hfresh Hnd].
  constructor; [by apply IH|].
  apply Forall_forall. intros y Hy. split.
  - by apply (proj1 (Forall_forall _ _) Hx).
  - intros Heq. apply Hfresh. rewrite Heq. by apply list_elem_of_fmap_2.
Qed.

Lemma StronglySorted_reverse_flip {A} (R : relation A) (l : list A) :
  StronglySorted R l → StronglySorted (flip R) (reverse l).
Proof.
  induction 1 as [|x l Hl IH Hx]; [constructor|].
  rewrite reverse_cons. apply StronglySorted_app. split; [|split].
  - intros y z Hy Hz. apply list_elem_of_singleton in Hz as ->.
    rewrite elem_of_reverse in Hy. unfold flip.
    by apply (proj1 (Forall_forall _ _) Hx).
  - done.
  - repeat constructor.
Qed.

Lemma StronglySorted_weaken {A} (R S : relation A) (l : list A) :
  (∀ a b, R a b → S a b) → StronglySorted R l → StronglySorted S l.
Proof.
  intros HRS. induction 1 as [|x l Hl IH Hx]; constructor; [done|].
  eapply Forall_impl; [exact Hx|]. auto.
Qed.

Lemma ping_before_distinct_emitted a b :
  ping_before b a → item_key b ≠ item_key a → emitted_before a b.
Proof.
  unfold ping_before, emitted_before, item_key. rewrite ping_lt_true.
  intros [?|[Hp [?|[Hf [?|[Ht Hb]]]]]] Hne.
  - by left.
  - right. split; [done|]. by left.
  - right. split; [done|]. right. split; [done|]. by left.
  - right. split; [done|]. right. split; [done|]. right.
    split; [done|]. split; [|done].
    destruct (back a) eqn:Ha; [|done].
    exfalso. apply Hne. by rewrite Hf, Ht, Hb.
Qed.

(** ** The order of the entries *)

(** C6, as the code has it.  The output loop walks the set backwards, so
    the entries come with the larger rank key first and, among equal rank
    keys, the larger [from] first, then the larger [to] first, then the
    front interface before the back interface — each entry stands in
    this relation to every later one. *)
Theorem entries_emitted_in_reverse_set_order value pm :
  StronglySorted emitted_before (emitted value pm).
Proof.
  unfold emitted.
  apply (StronglySorted_weaken
           (flip (λ a b, ping_before a b ∧ item_key a ≠ item_key b))).
  { intros a b [Hlt Hne]. by apply ping_before_distinct_emitted. }
  apply StronglySorted_reverse_flip, StronglySorted_distinct.
  - apply collect_sorted_sorted.
  - pose proof (NoDup_emitted_keys value pm) as Hnd. unfold emitted in Hnd.
    by rewrite fmap_reverse, reverse_Permutation in Hnd.
Qed.

(** C6 as the specification words it fails: OSDs 1 and 3 both ping OSD 2
    with rank key 50 on both interfaces; the entries of OSD 3 come before
    those of OSD 1, and front comes before back. *)
Lemma ties_emitted_descending :
  item_key <$> emitted 0 pm_two_osds
    = [(3, 2, false); (3, 2, true); (1, 2, false); (1, 2, true)]
  ∧ pingtime <$> emitted 0 pm_two_osds = [50; 50; 50; 50]
  ∧ bool_decide (Sorted specified_before (emitted 0 pm_two_osds)) = false
  ∧ ¬ Sorted specified_before (emitted 0 pm_two_osds).
Proof.
  split; [vm_compute; reflexivity|]. split; [vm_compute; reflexivity|].
  split; [vm_compute; reflexivity|].
  intros H. apply (bool_decide_pack _) in H. vm_compute in H. exact H.
Qed.

(** ** Which samples are reported *)

Lemma back_item_inj i j x i' j' x' :
  back_item i j x = back_item i' j' x' → i = i' ∧ j = j'.
Proof. intros H. by injection H. Qed.

Lemma front_item_inj i j x i' j' x' :
  front_item i j x = front_item i' j' x' → i = i' ∧ j = j'.
Proof. intros H. by injection H. Qed.

(** C7.  A front entry is emitted only with a nonzero last sample; for a
    pair the aggregate holds, the back entry is emitted exactly when its
    rank key passes the threshold, whatever its last sample, and the
    front entry exactly when its last sample is nonzero and its rank key
    passes the threshold. *)
Theorem front_needs_last_sample_back_does_not value pm :
  (∀ e, e ∈ emitted value pm → back e = false → last e ≠ 0)
  ∧ (∀ i os j x,
       osd_stat pm !! i = Some os → hb_pingtime os !! j = Some x →
       (back_item i j x ∈ emitted value pm
        ↔ over_threshold value (max3 (back_pingtime x)) = true)
       ∧ (front_item i j x ∈ emitted value pm
          ↔ front_last x ≠ 0
            ∧ over_threshold value (max3 (front_pingtime x)) = true)).
Proof.
  split.
  - intros e He Hfront. apply elem_of_emitted, elem_of_offered in He.
    destruct He as (i & os & j & x & _ & _ & [[-> _]|[-> [Hlast _]]]); done.
  - intros i os j x Hi Hj. rewrite !elem_of_emitted, !elem_of_offered. split; split.
    + intros (i' & os' & j' & x' & Hi' & Hj' & [[Heq Hover]|[Heq _]]); [|done].
      destruct (back_item_inj _ _ _ _ _ _ Heq) as [<- <-].
      rewrite Hi in Hi'. injection Hi' as <-.
      rewrite Hj in Hj'. by injection Hj' as <-.
    + intros Hover. exists i, os, j, x. split; [done|]. split; [done|]. by left.
    + intros (i' & os' & j' & x' & Hi' & Hj' & [[Heq _]|[Heq Hover]]); [done|].
      destruct (front_item_inj _ _ _ _ _ _ Heq) as [<- <-].
      rewrite Hi in Hi'. injection Hi' as <-.
      rewrite Hj in Hj'. by injection Hj' as <-.
    + intros Hover. exists i, os, j, x. split; [done|]. split; [done|]. by right.
Qed.

(** The specification's scenario: neither interface of the pair 1→2 has
    a last sample; at threshold 0 the back entry, rank key 50, is the
    only one. *)
Example back_entry_without_last_sample :
  emitted 0 pm_never_sampled = [back_item 1 2 never_sampled]
  ∧ last (back_item 1 2 never_sampled) = 0
  ∧ pingtime (back_item 1 2 never_sampled) = 50.
Proof. repeat split; vm_compute; reflexivity. Qed.

(** ** The comparison is no strict order *)

(** C10.  On operands that agree on [pingtime], [from] and [to] the
    comparison returns the left operand's [back]; hence every back item
    is less than itself, and the relation is neither irreflexive nor a
    strict order. *)
Theorem ping_lt_not_irreflexive :
  (∀ a b, pingtime a = pingtime b → from a = from b → to a = to b →
          ping_lt a b = back a)
  ∧ (∀ e, back e = true → ping_lt e e = true)
  ∧ ¬ Irreflexive ping_before
  ∧ ¬ StrictOrder ping_before.
Proof.
  assert (∀ e, back e = true → ping_lt e e = true) as Hself.
  { intros e Hb. by rewrite ping_lt_same_sample. }
  assert (¬ Irreflexive ping_before) as Hirr.
  { intros Hirr. apply (Hirr (back_item 1 2 never_sampled)). by apply Hself. }
  split; [exact ping_lt_same_sample|]. split; [exact Hself|]. split; [exact Hirr|].
  intros [Hirr' _]. by apply Hirr.
Qed.

(** ** The threshold *)

Lemma clamp_max value : clamp value = Z.max 0 value.
Proof. unfold clamp. destruct (Z.ltb_spec value 0); lia. Qed.

(** The outcome of the hook for each kind of [value] parameter, with the
    double arithmetic left as [scale_by]. *)
Theorem threshold_resolution {double} (scale_by : Z → double → Z)
    (conf : Config double) cs cmdmap format out :
  call scale_by conf cs "dump_osd_network" cmdmap format out =
  match cmdmap !! "value" with
  | None =>
      let configured := to_int64 (mon_warn_on_slow_ping_time conf) in
      let value :=
        if configured =? 0
        then scale_by (osd_heartbeat_grace conf) (mon_warn_on_slow_ping_ratio conf)
        else configured in
      Some (true, out ++ [Flushed format (report_doc (Z.max 0 value) (pg_map cs))])
  | Some (CmdInt v) =>
      Some (true, out ++ [Flushed format (report_doc (Z.max 0 v) (pg_map cs))])
  | Some _ =>
      Some (true, out ++ [Text (bad_cmd_get_what "value")])
  end.
Proof.
  unfold call, asok_command, cmd_getval.
  rewrite bool_decide_eq_true_2 by done.
  destruct (cmdmap !! "value") as [[s|b|v]|]; simpl; try done.
  - rewrite clamp_max. fold (emitted (Z.max 0 v) (pg_map cs)).
    by rewrite dump_emitted.
  - rewrite clamp_max. unfold default_value.
    match goal with |- context [dump_entries ?t (reverse (collect_sorted ?t ?pm))] =>
      fold (emitted t pm); rewrite (dump_emitted t pm) end.
    done.
Qed.

(** C8 as the specification words it fails: a [value] that is no integer
    yields the exception's message and no report, where the
    specification has the report at threshold zero. *)
Lemma unparsable_threshold_gives_no_report :
  call scale_hundredths conf_unset ClusterState_new "dump_osd_network"
       {[ "value" := CmdString "fast" ]} "json" []
  = Some (true, [Text (bad_cmd_get_what "value")])
  ∧ call scale_hundredths conf_unset ClusterState_new "dump_osd_network"
       {[ "value" := CmdString "fast" ]} "json" []
    ≠ Some (true, [Flushed "json" (report_doc 0 PGMap_new)]).
Proof.
  split; vm_compute; [reflexivity | discriminate].
Qed.

(** * Further properties of the merge engine *)

(** What the loop leaves for a PG, against what the delta held. *)
Lemma foldl_ingest_pg_origin pools pm l inc pgid :
  match pg_stat_updates (foldl (ingest_pg pools pm) inc l) !! pgid with
  | Some s =>
      pg_stat_updates inc !! pgid = Some s
      ∨ ((pgid, s) ∈ l ∧ m_pool pgid ∈ pools ∧ heard_more_recent pm pgid s = false)
  | None => pg_stat_updates inc !! pgid = None
  end.
Proof.
  revert inc. induction l as [|[k s0] l IH]; intros inc; simpl.
  - destruct (pg_stat_updates inc !! pgid); [by left | done].
  - specialize (IH (ingest_pg pools pm inc (k, s0))).
    destruct (pg_stat_updates (foldl (ingest_pg pools pm)
                (ingest_pg pools pm inc (k, s0)) l) !! pgid) as [s|].
    + destruct IH as [Hhead | (Hin & Hpool & Hrec)].
      * destruct (decide (k = pgid)) as [->|Hne].
        -- rewrite ingest_pg_self in Hhead.
           destruct (bool_decide (m_pool pgid ∈ pools)) eqn:Hp; simpl in Hhead; [|by left].
           destruct (heard_more_recent pm pgid s0) eqn:Hr; simpl in Hhead; [by left|].
           injection Hhead as ->. right. split; [apply elem_of_cons; by left|].
           split; [by apply bool_decide_eq_true in Hp | done].
        -- rewrite ingest_pg_other in Hhead by done. by left.
      * right. split; [apply elem_of_cons; by right | done].
    + destruct (decide (k = pgid)) as [->|Hne].
      * rewrite ingest_pg_self in IH.
        destruct (bool_decide (m_pool pgid ∈ pools)
                  && negb (heard_more_recent pm pgid s0)); done.
      * by rewrite ingest_pg_other in IH.
Qed.

Lemma staged_pg_origin_aux cs stats pgid :
  match staged (ingest_pgstats cs stats) pgid with
  | Some s =>
      staged cs pgid = Some s
      ∨ ((pgid, s) ∈ msg_pg_stat stats
         ∧ m_pool pgid ∈ existing_pools cs
         ∧ heard_more_recent (pg_map cs) pgid s = false)
  | None => staged cs pgid = None
  end.
Proof.
  unfold staged, ingest_pgstats; simpl.
  apply (foldl_ingest_pg_origin (existing_pools cs) (pg_map cs) (msg_pg_stat stats)
    (update_stat (orig_source_num stats) (msg_epoch stats) (msg_osd_stat stats)
       (pending_inc cs)) pgid).
Qed.

(** X1.  After a report, what the pending delta holds for a PG is what
    it held before, or an entry of the report whose pool is in the
    existence filter and whose version pair is not older than the one the
    aggregate holds; a report never clears what was staged. *)
Theorem staged_is_old_or_admitted cs stats pgid :
  match staged (ingest_pgstats cs stats) pgid with
  | Some s =>
      staged cs pgid = Some s
      ∨ ((pgid, s) ∈ msg_pg_stat stats
         ∧ m_pool pgid ∈ existing_pools cs
         ∧ ∀ q, held cs pgid = Some q → ¬ vp_lt s q)
  | None => staged cs pgid = None
  end.
Proof.
  unfold staged, ingest_pgstats; simpl.
  pose proof (foldl_ingest_pg_origin (existing_pools cs) (pg_map cs) (msg_pg_stat stats)
    (update_stat (orig_source_num stats) (msg_epoch stats) (msg_osd_stat stats)
       (pending_inc cs)) pgid) as H.
  destruct (pg_stat_updates (foldl _ _ _) !! pgid) as [s|]; [|done].
  destruct H as [H | (Hin & Hpool & Hrec)]; [by left|].
  right. split; [done|]. split; [done|]. by apply heard_more_recent_false.
Qed.

(** X2.  A report only stages: the aggregate, the existence filter and
    the delta's version and stamp stay as they were, the summaries of the
    other reporters stay, and so does what is staged for every PG the
    report does not name. *)
Theorem report_only_stages cs stats :
  pg_map (ingest_pgstats cs stats) = pg_map cs
  ∧ existing_pools (ingest_pgstats cs stats) = existing_pools cs
  ∧ inc_version (pending_inc (ingest_pgstats cs stats)) = inc_version (pending_inc cs)
  ∧ stamp (pending_inc (ingest_pgstats cs stats)) = stamp (pending_inc cs)
  ∧ (∀ osd, osd ≠ orig_source_num stats →
       staged_summary (ingest_pgstats cs stats) osd = staged_summary cs osd)
  ∧ (∀ pgid, pgid ∉ (msg_pg_stat stats).*1 →
       staged (ingest_pgstats cs stats) pgid = staged cs pgid).
Proof.
  split; [done|]. split; [done|].
  destruct (foldl_ingest_pg_frame (existing_pools cs) (pg_map cs) (msg_pg_stat stats)
    (update_stat (orig_source_num stats) (msg_epoch stats) (msg_osd_stat stats)
       (pending_inc cs))) as (Hv & Ht & Ho).
  split; [exact Hv|]. split; [exact Ht|]. split.
  - intros osd Hne. unfold staged_summary.
    rewrite ingest_pgstats_summaries. by apply lookup_insert_ne.
  - intros pgid Hnot. unfold staged, ingest_pgstats; simpl.
    by rewrite foldl_ingest_pg_skip.
Qed.

Lemma foldl_ingest_pg_depends pools pm l inc1 inc2 pgid :
  pg_stat_updates inc1 !! pgid = pg_stat_updates inc2 !! pgid →
  pg_stat_updates (foldl (ingest_pg pools pm) inc1 l) !! pgid
  = pg_stat_updates (foldl (ingest_pg pools pm) inc2 l) !! pgid.
Proof.
  intros Heq.
  destruct (foldl_ingest_pg_settles pools pm l pgid) as [[s Hs] | Hpass].
  - by rewrite !Hs.
  - by rewrite !Hpass.
Qed.

(** X3.  Two reports of different reporters that name no PG in common
    commute: either delivery order leaves the same state. *)
Theorem reports_on_other_pgs_commute cs m1 m2 :
  orig_source_num m1 ≠ orig_source_num m2 →
  (∀ pgid, pgid ∈ (msg_pg_stat m1).*1 → pgid ∉ (msg_pg_stat m2).*1) →
  ingest_pgstats (ingest_pgstats cs m1) m2 = ingest_pgstats (ingest_pgstats cs m2) m1.
Proof.
  intros Hosd Hdisj.
  unfold ingest_pgstats; simpl. f_equal.
  set (pools := existing_pools cs). set (pm := pg_map cs).
  pose proof (foldl_ingest_pg_frame pools pm) as Hframe.
  apply Incremental_eq.
  - rewrite !(proj1 (Hframe _ _)). simpl. by rewrite !(proj1 (Hframe _ _)).
  - rewrite !(proj1 (proj2 (Hframe _ _))). simpl.
    by rewrite !(proj1 (proj2 (Hframe _ _))).
  - apply map_eq. intros pgid.
    destruct (decide (pgid ∈ (msg_pg_stat m1).*1)) as [Hin1|Hout1].
    + rewrite (foldl_ingest_pg_skip pools pm (msg_pg_stat m2)) by auto. simpl.
      apply foldl_ingest_pg_depends. simpl.
      by rewrite (foldl_ingest_pg_skip pools pm (msg_pg_stat m2)) by auto.
    + rewrite (foldl_ingest_pg_skip pools pm (msg_pg_stat m1) _ pgid Hout1). simpl.
      symmetry. apply foldl_ingest_pg_depends. simpl.
      by rewrite (foldl_ingest_pg_skip pools pm (msg_pg_stat m1) _ pgid Hout1).
  - rewrite !(proj2 (proj2 (Hframe _ _))). simpl.
    rewrite !(proj2 (proj2 (Hframe _ _))). simpl.
    by apply insert_insert_ne.
Qed.

Lemma reports_on_other_pgs_commute_witness :
  ingest_pgstats (ingest_pgstats cs_holding (report_on 0 pg_1_3 stats_5_2_bis))
    (report_on 1 pg_1_4 stats_5_1)
  = ingest_pgstats (ingest_pgstats cs_holding (report_on 1 pg_1_4 stats_5_1))
      (report_on 0 pg_1_3 stats_5_2_bis).
Proof.
  refine (reports_on_other_pgs_commute cs_holding
            (report_on 0 pg_1_3 stats_5_2_bis) (report_on 1 pg_1_4 stats_5_1) _ _).
  - discriminate.
  - intros pgid Hin Hin'. simpl in Hin, Hin'.
    apply list_elem_of_singleton in Hin. apply list_elem_of_singleton in Hin'.
    rewrite Hin in Hin'. discriminate Hin'.
Defined.

Lemma vp_not_older_trans (a b c : pg_stat_t) :
  ¬ vp_lt b a → ¬ vp_lt c b → ¬ vp_lt c a.
Proof. unfold vp_lt. lia. Qed.

Lemma ingest_keeps_within_filter cs stats :
  delta_within_filter cs → delta_within_filter (ingest_pgstats cs stats).
Proof.
  intros Hinv pgid [s Hs].
  pose proof (staged_pg_origin_aux cs stats pgid) as H.
  rewrite Hs in H. destruct H as [H | (_ & Hpool & _)]; [|done].
  apply Hinv. by exists s.
Qed.

Lemma ingest_keeps_not_older cs stats :
  delta_not_older cs → delta_not_older (ingest_pgstats cs stats).
Proof.
  intros Hinv pgid s q Hs Hq.
  pose proof (staged_pg_origin_aux cs stats pgid) as H.
  rewrite Hs in H. destruct H as [H | (_ & _ & Hrec)].
  - by apply (Hinv pgid s q).
  - by apply (proj1 (heard_more_recent_false _ _ _) Hrec q).
Qed.

Lemma fresh_delta_within_filter pm pools :
  delta_within_filter {| pg_map := pm; pending_inc := Incremental_new;
                         existing_pools := pools |}.
Proof. intros pgid [s Hs]. unfold staged in Hs; simpl in Hs. by rewrite lookup_empty in Hs. Qed.

Lemma fresh_delta_not_older pm pools :
  delta_not_older {| pg_map := pm; pending_inc := Incremental_new;
                     existing_pools := pools |}.
Proof. intros pgid s q Hs. unfold staged in Hs; simpl in Hs. by rewrite lookup_empty in Hs. Qed.

(** X4.  However reports, commits and cluster maps follow one another,
    every call returns and every PG the pending delta holds is of a pool
    in the existence filter of the moment. *)
Theorem delta_stays_within_filter check_osd_map check_down_pgs ops cs :
  osd_check_keeps_version check_osd_map →
  down_check_keeps_version check_down_pgs →
  delta_within_filter cs →
  ∃ cs', run check_osd_map check_down_pgs ops cs = Some cs'
         ∧ delta_within_filter cs'.
Proof.
  intros Hosd Hdown. revert cs.
  induction ops as [|o ops IH]; intros cs Hinv; simpl; [by exists cs|].
  destruct o as [stats | now | now osd_map]; simpl.
  - apply IH. by apply ingest_keeps_within_filter.
  - rewrite update_delta_stats_eq. apply IH, fresh_delta_within_filter.
  - rewrite notify_osdmap_eq by done. apply IH, fresh_delta_within_filter.
Qed.

Lemma delta_stays_within_filter_witness :
  ∃ cs', run quiet_osd_check quiet_down_check
           [Report (report_of 0 stats_5_1); NewMap 2 map_pool2;
            Report (report_of 1 stats_5_2); Tick 3; Report (report_of 0 stats_5_2_bis)]
           cs_pool1 = Some cs'
         ∧ delta_within_filter cs'.
Proof.
  refine (delta_stays_within_filter quiet_osd_check quiet_down_check
            [Report (report_of 0 stats_5_1); NewMap 2 map_pool2;
             Report (report_of 1 stats_5_2); Tick 3; Report (report_of 0 stats_5_2_bis)]
            cs_pool1 _ _ _).
  - intros m pm inc. reflexivity.
  - intros m pm full osds inc. reflexivity.
  - apply fresh_delta_within_filter.
Defined.

(** X5.  Between two cluster maps the aggregate never goes back in time:
    starting with nothing staged that is older than the aggregate, after
    any reports and commits every PG the aggregate held is still held,
    with a version pair that is not older. *)
Theorem recency_never_regresses check_osd_map check_down_pgs ops cs :
  no_new_map ops →
  delta_not_older cs →
  ∃ cs', run check_osd_map check_down_pgs ops cs = Some cs'
         ∧ delta_not_older cs'
         ∧ ∀ pgid q, held cs pgid = Some q →
             ∃ q', held cs' pgid = Some q' ∧ ¬ vp_lt q' q.
Proof.
  intros Hops. revert cs.
  induction Hops as [|o ops Ho Hops IH]; intros cs Hinv; simpl.
  - exists cs. split; [done|]. split; [done|].
    intros pgid q Hq. exists q. split; [done|]. unfold vp_lt. lia.
  - destruct o as [stats | now | now osd_map]; [| |done]; simpl.
    + destruct (IH (ingest_pgstats cs stats)) as (cs' & Hrun & Hinv' & Hkeep).
      { by apply ingest_keeps_not_older. }
      exists cs'. split; [done|]. split; [done|]. exact Hkeep.
    + rewrite update_delta_stats_eq.
      match goal with |- ∃ _, run _ _ _ ?c = _ ∧ _ =>
        destruct (IH c) as (cs' & Hrun & Hinv' & Hkeep) end.
      { apply fresh_delta_not_older. }
      exists cs'. split; [done|]. split; [done|].
      intros pgid q Hq.
      destruct (staged cs pgid) as [s|] eqn:Hs.
      * destruct (Hkeep pgid s) as (q' & Hq' & Hle).
        { unfold held; simpl. unfold staged in Hs. by apply lookup_union_Some_l. }
        exists q'. split; [done|].
        apply (vp_not_older_trans q s q'); [|done]. by apply (Hinv pgid s q).
      * apply Hkeep. unfold held; simpl. unfold staged in Hs. unfold held in Hq.
        by rewrite lookup_union_r.
Qed.

Lemma recency_never_regresses_witness :
  ∃ cs', run quiet_osd_check quiet_down_check
           [Report (report_of 0 stats_5_1); Report (report_of 1 stats_5_2_bis); Tick 3;
            Report (report_of 0 stats_5_1); Tick 4]
           cs_holding = Some cs'
         ∧ delta_not_older cs'
         ∧ ∀ pgid q, held cs_holding pgid = Some q →
             ∃ q', held cs' pgid = Some q' ∧ ¬ vp_lt q' q.
Proof.
  refine (recency_never_regresses quiet_osd_check quiet_down_check
            [Report (report_of 0 stats_5_1); Report (report_of 1 stats_5_2_bis); Tick 3;
             Report (report_of 0 stats_5_1); Tick 4]
            cs_holding _ _).
  - repeat constructor.
  - apply fresh_delta_not_older.
Defined.

(** * Further properties of the latency ranking *)

Lemma ping_lt_both_ways a b :
  ping_lt a b = true → ping_lt b a = true →
  pingtime a = pingtime b ∧ item_key a = item_key b.
Proof.
  rewrite !ping_lt_true. unfold item_key.
  intros [?|[? [?|[? [?|[? Ha]]]]]] [?|[? [?|[? [?|[? Hb]]]]]]; try lia.
  split; [done|]. congruence.
Qed.

(** X6.  The comparison is transitive, and of two items that report
    different samples (another pair or another interface) exactly one is
    less than the other: on the items of one scan it is a strict total
    order, whatever it answers on an item and itself. *)
Theorem ping_lt_orders_distinct_samples :
  (∀ a b c, ping_lt a b = true → ping_lt b c = true → ping_lt a c = true)
  ∧ (∀ a b, item_key a ≠ item_key b → ping_lt a b = negb (ping_lt b a)).
Proof.
  split; [exact ping_lt_trans|].
  intros a b Hne.
  destruct (ping_lt a b) eqn:Hab, (ping_lt b a) eqn:Hba; simpl; try done.
  - exfalso. apply Hne. by destruct (ping_lt_both_ways a b Hab Hba).
  - exfalso. apply Hne.
    destruct (ping_lt_equivalent a b Hab Hba) as (_ & Hf & Ht & Hx & Hy).
    unfold item_key. by rewrite Hf, Ht, Hx, Hy.
Qed.

Lemma NoDup_fmap_same {A K} (f : A → K) (l : list A) x y :
  NoDup (f <$> l) → x ∈ l → y ∈ l → f x = f y → x = y.
Proof.
  induction l as [|z l IH]; intros Hnd Hx Hy Heq.
  - by apply elem_of_nil in Hx.
  - rewrite fmap_cons, NoDup_cons in Hnd. destruct Hnd as [Hz Hnd].
    apply elem_of_cons in Hx as [->|Hx]; apply elem_of_cons in Hy as [->|Hy].
    + done.
    + exfalso. apply Hz. rewrite Heq. by apply list_elem_of_fmap_2.
    + exfalso. apply Hz. rewrite <- Heq. by apply list_elem_of_fmap_2.
    + by apply IH.
Qed.

Lemma emplace_all_perm items :
  NoDup (item_key <$> items) → emplace_all [] items ≡ₚ items.
Proof.
  intros Hnd. apply NoDup_Permutation.
  - apply (NoDup_fmap_1 item_key).
    eapply submseteq_keeps_NoDup; [|exact Hnd].
    apply fmap_submseteq. apply (emplace_all_submseteq [] items).
  - by apply (NoDup_fmap_1 item_key).
  - intros e. split.
    + intros He. apply emplace_all_inv in He as [He|He]; [|done].
      by apply elem_of_nil in He.
    + by apply emplace_all_new.
Qed.

(** X7.  The set does not depend on the order in which the samples are
    offered to it: two scans that offer the same items, each sample once,
    in any two orders leave the same sequence. *)
Theorem set_independent_of_insertion_order l1 l2 :
  l1 ≡ₚ l2 →
  NoDup (item_key <$> l1) →
  emplace_all [] l1 = emplace_all [] l2.
Proof.
  intros Hperm Hnd1.
  assert (NoDup (item_key <$> l2)) as Hnd2 by (by rewrite <- Hperm).
  apply (StronglySorted_unique_strong ping_before).
  - intros x1 x2 Hx1 Hx2 H12 H21.
    rewrite (emplace_all_perm l1 Hnd1) in Hx1.
    rewrite (emplace_all_perm l2 Hnd2), <- Hperm in Hx2.
    apply (NoDup_fmap_same item_key l1); try done.
    by destruct (ping_lt_both_ways x1 x2 H12 H21).
  - apply emplace_all_sorted. constructor.
  - apply emplace_all_sorted. constructor.
  - by rewrite (emplace_all_perm l1 Hnd1), (emplace_all_perm l2 Hnd2).
Qed.

Lemma set_independent_of_insertion_order_witness :
  emplace_all [] [back_item 1 2 both_at_50; front_item 1 2 both_at_50;
                  back_item 3 2 never_sampled]
  = emplace_all [] [back_item 3 2 never_sampled; front_item 1 2 both_at_50;
                    back_item 1 2 both_at_50].
Proof.
  refine (set_independent_of_insertion_order
            [back_item 1 2 both_at_50; front_item 1 2 both_at_50;
             back_item 3 2 never_sampled]
            [back_item 3 2 never_sampled; front_item 1 2 both_at_50;
             back_item 1 2 both_at_50] _ _).
  - etrans; [apply Permutation_swap|].
    etrans; [apply perm_skip, Permutation_swap|].
    apply Permutation_swap.
  - apply (bool_decide_unpack _). vm_compute. exact I.
Defined.

Lemma emitted_strongly_sorted value pm :
  StronglySorted emitted_before (emitted value pm).
Proof.
  unfold emitted.
  apply (StronglySorted_weaken
           (flip (λ a b, ping_before a b ∧ item_key a ≠ item_key b))).
  { intros a b [Hlt Hne]. by apply ping_before_distinct_emitted. }
  apply StronglySorted_reverse_flip, StronglySorted_distinct.
  - apply collect_sorted_sorted.
  - pose proof (NoDup_emitted_keys value pm) as Hnd. unfold emitted in Hnd.
    by rewrite fmap_reverse, reverse_Permutation in Hnd.
Qed.

Lemma emitted_before_asym a b : emitted_before a b → emitted_before b a → False.
Proof.
  unfold emitted_before.
  intros [?|[? [?|[? [?|[? [Ha Hb]]]]]]] [?|[? [?|[? [?|[? [Ha' Hb']]]]]]]; try lia.
  congruence.
Qed.

Lemma StronglySorted_filter {A} (R : relation A) (P : A → Prop)
    `{∀ x, Decision (P x)} (l : list A) :
  StronglySorted R l → StronglySorted R (filter P l).
Proof.
  induction 1 as [|x l Hl IH Hx]; [constructor|].
  rewrite filter_cons. case_decide; [|done].
  constructor; [done|].
  apply Forall_forall. intros y Hy. apply list_elem_of_filter in Hy as [_ Hy].
  by apply (proj1 (Forall_forall _ _) Hx).
Qed.

Lemma over_threshold_positive value p :
  0 < value → over_threshold value p = true ↔ value ≤ p.
Proof.
  intros Hpos. unfold over_threshold.
  destruct (Z.eqb_spec value 0); [lia|]. simpl. rewrite Z.geb_le. done.
Qed.

Lemma over_threshold_lower value value' p :
  value = 0 ∨ value ≤ value' → value' ≤ p → over_threshold value p = true.
Proof.
  intros Hle Hp. unfold over_threshold.
  destruct (Z.eqb_spec value 0); [done|]. simpl. apply Z.geb_le. lia.
Qed.

Lemma offered_at_higher_threshold value value' pm e :
  0 < value' → value = 0 ∨ value ≤ value' →
  e ∈ offered value' pm ↔ e ∈ offered value pm ∧ value' ≤ pingtime e.
Proof.
  intros Hpos Hle. rewrite !elem_of_offered. split.
  - intros (i & os & j & x & Hi & Hj & [[-> Hover]|[-> [Hlast Hover]]]);
      apply (over_threshold_positive _ _ Hpos) in Hover.
    + split; [|done]. exists i, os, j, x. split; [done|]. split; [done|].
      left. split; [done|]. by apply (over_threshold_lower value value').
    + split; [|done]. exists i, os, j, x. split; [done|]. split; [done|].
      right. split; [done|]. split; [done|].
      by apply (over_threshold_lower value value').
  - intros [(i & os & j & x & Hi & Hj & [[-> _]|[-> [Hlast _]]]) Hp];
      exists i, os, j, x; (split; [done|]); (split; [done|]).
    + left. split; [done|]. by apply over_threshold_positive.
    + right. split; [done|]. split; [done|]. by apply over_threshold_positive.
Qed.

(** X8.  A report at a higher threshold is the report at a lower one (or
    at threshold zero) with the entries under the higher threshold taken
    out: the same entries in the same order. *)
Theorem higher_threshold_filters_report value value' pm :
  0 < value' →
  value = 0 ∨ value ≤ value' →
  emitted value' pm = filter (λ e, value' ≤ pingtime e) (emitted value pm).
Proof.
  intros Hpos Hle.
  apply (StronglySorted_unique_strong emitted_before).
  - intros x1 x2 _ _ H12 H21. destruct (emitted_before_asym x1 x2 H12 H21).
  - apply emitted_strongly_sorted.
  - apply StronglySorted_filter, emitted_strongly_sorted.
  - apply NoDup_Permutation.
    + apply (NoDup_fmap_1 item_key), NoDup_emitted_keys.
    + apply NoDup_filter, (NoDup_fmap_1 item_key), NoDup_emitted_keys.
    + intros e. rewrite list_elem_of_filter, !elem_of_emitted.
      rewrite (offered_at_higher_threshold value value' pm e Hpos Hle). tauto.
Qed.

Lemma higher_threshold_filters_report_witness :
  emitted 50 pm_two_osds = filter (λ e, 50 ≤ pingtime e) (emitted 0 pm_two_osds).
Proof.
  refine (higher_threshold_filters_report 0 50 pm_two_osds _ _).
  - reflexivity.
  - left. reflexivity.
Defined.

(** * Further properties of the command *)

Lemma asok_dump_osd_network {double} (scale_by : Z → double → Z)
    (conf : Config double) cs cmdmap format ss :
  asok_command scale_by conf cs "dump_osd_network" cmdmap format ss =
  match cmd_getval cmdmap "value" with
  | GetTrue v =>
      (Returns true, ss ++ [Flushed format (report_doc (clamp v) (pg_map cs))])
  | GetFalse =>
      (Returns true,
       ss ++ [Flushed format (report_doc (clamp (default_value scale_by conf)) (pg_map cs))])
  | GetThrows what => (Throws what, ss)
  end.
Proof.
  unfold asok_command. rewrite bool_decide_eq_true_2 by done.
  destruct (cmd_getval cmdmap "value") as [v| |what]; [| |done].
  - fold (emitted (clamp v) (pg_map cs)). by rewrite dump_emitted.
  - fold (emitted (clamp (default_value scale_by conf)) (pg_map cs)).
    by rewrite dump_emitted.
Qed.

(** X9.  The hook aborts exactly on a command other than
    [dump_osd_network].  On that command, whatever the parameters and the
    aggregate, the assertion of the output loop holds, the hook returns
    true, and it appends one piece to the buffer, leaving what the buffer
    held in front of it. *)
Theorem call_aborts_only_on_unknown_command {double} (scale_by : Z → double → Z)
    (conf : Config double) cs admin_command cmdmap format out :
  (admin_command ≠ "dump_osd_network" →
     call scale_by conf cs admin_command cmdmap format out = None)
  ∧ (admin_command = "dump_osd_network" →
       ∃ piece, call scale_by conf cs admin_command cmdmap format out
                = Some (true, out ++ [piece])).
Proof.
  split.
  - intros Hne. unfold call, asok_command. by rewrite bool_decide_eq_false_2.
  - intros ->. unfold call. rewrite asok_dump_osd_network.
    destruct (cmd_getval cmdmap "value"); simpl; eauto.
Qed.

(** X10.  A configured warning threshold of 2^63 or more turns negative
    in the conversion to a signed value and is clamped: without a [value]
    parameter the report then comes at threshold zero, with every sample
    in it. *)
Theorem huge_configured_threshold_is_no_threshold {double} (scale_by : Z → double → Z)
    (conf : Config double) cs cmdmap format out :
  cmdmap !! "value" = None →
  2 ^ 63 ≤ mon_warn_on_slow_ping_time conf < 2 ^ 64 →
  call scale_by conf cs "dump_osd_network" cmdmap format out
  = Some (true, out ++ [Flushed format (report_doc 0 (pg_map cs))]).
Proof.
  intros Hnone Hrange. unfold call. rewrite asok_dump_osd_network.
  unfold cmd_getval. rewrite Hnone. simpl.
  assert (clamp (default_value scale_by conf) = 0) as ->; [|done].
  unfold default_value, to_int64.
  destruct (Z.ltb_spec (mon_warn_on_slow_ping_time conf) (2 ^ 63)); [lia|].
  destruct (Z.eqb_spec (mon_warn_on_slow_ping_time conf - 2 ^ 64) 0); [lia|].
  unfold clamp.
  destruct (Z.ltb_spec (mon_warn_on_slow_ping_time conf - 2 ^ 64) 0); [done|lia].
Qed.

Lemma huge_configured_threshold_witness :
  call scale_hundredths (mk_Config (2 ^ 63) 5 20) ClusterState_new
       "dump_osd_network" ∅ "json" []
  = Some (true, [] ++ [Flushed "json" (report_doc 0 (pg_map ClusterState_new))]).
Proof.
  refine (huge_configured_threshold_is_no_threshold scale_hundredths
            (mk_Config (2 ^ 63) 5 20) ClusterState_new ∅ "json" [] _ _).
  - reflexivity.
  - simpl. lia.
Defined.

(** ** The shape of the document *)

Lemma depth_after_app d l1 l2 :
  depth_after d (l1 ++ l2) =
  match depth_after d l1 with
  | Some d' => depth_after d' l2
  | None => None
  end.
Proof.
  revert d. induction l1 as [|c l1 IH]; intros d; simpl; [done|].
  destruct c; destruct d; simpl; try done; apply IH.
Qed.

Lemma depth_after_dump_entry d e :
  depth_after (S d) (dump_entry e) = Some (S d).
Proof. reflexivity. Qed.

Lemma depth_after_entries d l :
  depth_after (S d) (flat_map dump_entry l) = Some (S d).
Proof.
  induction l as [|e l IH]; [done|].
  change (flat_map dump_entry (e :: l)) with (dump_entry e ++ flat_map dump_entry l).
  by rewrite depth_after_app, depth_after_dump_entry.
Qed.

(** X11.  The document a report flushes is well nested whatever the
    entries, none included: every section that is opened is closed, none
    is closed that was not opened, and every value is dumped inside a
    section. *)
Theorem report_is_well_nested value pm (l : list mgr_ping_time_t) :
  depth_after 0 (network_ping_times value (flat_map dump_entry l)) = Some O
  ∧ depth_after 0 (report_doc value pm) = Some O.
Proof.
  assert (∀ l', depth_after 0 (network_ping_times value (flat_map dump_entry l')) = Some O)
    as Hany.
  { intros l'.
    change (depth_after 2 (flat_map dump_entry l' ++ [close_section; close_section])
            = Some O).
    by rewrite depth_after_app, depth_after_entries. }
  split; [apply Hany|]. apply Hany.
Qed.

Lemma dump_entry_inj a b r1 r2 :
  item_built a → item_built b →
  dump_entry a ++ r1 = dump_entry b ++ r2 → a = b ∧ r1 = r2.
Proof.
  destruct a as [pa fa ta ba [a0 a1 a2] [b0 b1 b2] [c0 c1 c2] la].
  destruct b as [pb fb tb bb [d0 d1 d2] [e0 e1 e2] [f0 f1 f2] lb].
  unfold item_built, dump_entry, dump_array3; simpl.
  intros -> -> H. injection H as -> -> Hif -> -> -> -> -> -> -> -> -> -> ->.
  by destruct ba, bb.
Qed.

Lemma dump_entries_inj l1 l2 :
  Forall item_built l1 → Forall item_built l2 →
  flat_map dump_entry l1 ++ [close_section; close_section]
  = flat_map dump_entry l2 ++ [close_section; close_section] →
  l1 = l2.
Proof.
  intros H1. revert l2. induction H1 as [|a l1 Ha _ IH]; intros l2 H2 Heq.
  - destruct l2 as [|b l2]; [done|]. discriminate Heq.
  - destruct H2 as [|b l2 Hb H2]; [discriminate Heq|].
    change (dump_entry a ++ (flat_map dump_entry l1 ++ [close_section; close_section])
            = dump_entry b ++ (flat_map dump_entry l2 ++ [close_section; close_section]))
      in Heq.
    destruct (dump_entry_inj _ _ _ _ Ha Hb Heq) as [-> Hrest].
    f_equal. by apply IH.
Qed.

Lemma emitted_items_built value pm : Forall item_built (emitted value pm).
Proof.
  apply Forall_forall. intros e He.
  apply elem_of_emitted, elem_of_offered in He.
  destruct He as (i & os & j & x & _ & _ & [[-> _]|[-> _]]); reflexivity.
Qed.

(** X12.  The document tells the report apart: two reports flush the
    same document only if they were made at the same threshold and carry
    the same entries in the same order. *)
Theorem document_determines_report value value' pm pm' :
  report_doc value pm = report_doc value' pm' →
  value = value' ∧ emitted value pm = emitted value' pm'.
Proof.
  unfold report_doc, network_ping_times. intros Heq.
  injection Heq as -> Hrest. split; [done|].
  apply dump_entries_inj; [apply emitted_items_built .. | done].
Qed.

(** The same heartbeat tables under another version of the aggregate
    give the same document, hence the same entries. *)
Lemma document_determines_report_witness :
  0 = 0
  ∧ emitted 0 pm_two_osds = emitted 0 (mk_PGMap 7 ∅ (osd_stat pm_two_osds)).
Proof.
  refine (document_determines_report 0 0 pm_two_osds
            (mk_PGMap 7 ∅ (osd_stat pm_two_osds)) _).
  vm_compute. reflexivity.
Defined.

(** X13.  Every entry of a report made at a threshold other than zero
    has a rank key that reaches the threshold; the rank key of an entry
    is the largest of the three averages the entry shows. *)
Theorem entries_reach_threshold value pm :
  Forall (λ e, (value = 0 ∨ value ≤ pingtime e)
               ∧ pingtime e = Z.max (Z.max (at0 (times e)) (at1 (times e)))
                                    (at2 (times e)))
         (emitted value pm).
Proof.
  apply Forall_forall. intros e He. split.
  - apply elem_of_emitted, (offered_over_threshold value pm) in He.
    unfold over_threshold in He.
    destruct (Z.eqb_spec value 0); [by left|]. simpl in He.
    right. by apply Z.geb_le.
  - by apply (proj1 (Forall_forall _ _) (emitted_items_built value pm)).
Qed.

(** * The derived threshold *)

Example default_grace_in_microseconds :
  times_1000000_ratio 20 ratio_0_05 = Some 1000000.
Proof. vm_compute. reflexivity. Qed.

(** Both products are rounded before the fractional part is discarded:
    with ratio 0.29 the statement leaves 5800000, where the exact product
    of the grace, 1000000 and the ratio's value lies below it. *)
Example product_rounded_before_truncation :
  times_1000000_ratio 20 ratio_0_29 = Some 5800000
  ∧ Z.div (20 * 1000000 * 5224175567749775) (2 ^ 54) = 5799999.
Proof. split; vm_compute; reflexivity. Qed.

(** A product that does not fit 64 bits has no defined conversion. *)
Example product_out_of_range :
  times_1000000_ratio (2 ^ 62) ratio_0_05 = None.
Proof. vm_compute. reflexivity. Qed.

Lemma scale_double_is_double : scale_by_is_double scale_double.
Proof. intros value ratio usec Heq. unfold scale_double. by rewrite Heq. Qed.

(** C8, as the code has it.  With no [value] parameter the threshold is
    the configured warning threshold read as a signed value, or, when
    that is zero, the result of [value *= 1000000 * ratio] on the grace
    period: the grace converted to double, multiplied in double precision
    by the product of 1000000 and the ratio, and converted back with the
    fraction discarded (where that conversion is defined).  A given
    integer is taken as it is.  In these cases a negative threshold
    becomes zero and the report is flushed.  A [value] that is no integer
    makes [asok_command] throw; the hook catches that, writes the message
    of the exception in place of the report, and returns true. *)
Theorem threshold_resolution_double (scale_by : Z → binary64 → Z)
    (conf : Config binary64) cs cmdmap format out :
  scale_by_is_double scale_by →
  match cmdmap !! "value" with
  | None =>
      let configured := to_int64 (mon_warn_on_slow_ping_time conf) in
      if configured =? 0 then
        match times_1000000_ratio (osd_heartbeat_grace conf)
                (mon_warn_on_slow_ping_ratio conf) with
        | Some usec =>
            call scale_by conf cs "dump_osd_network" cmdmap format out
            = Some (true, out ++ [Flushed format (report_doc (Z.max 0 usec) (pg_map cs))])
        | None => True
        end
      else
        call scale_by conf cs "dump_osd_network" cmdmap format out
        = Some (true, out ++ [Flushed format (report_doc (Z.max 0 configured) (pg_map cs))])
  | Some (CmdInt v) =>
      call scale_by conf cs "dump_osd_network" cmdmap format out
      = Some (true, out ++ [Flushed format (report_doc (Z.max 0 v) (pg_map cs))])
  | Some _ =>
      call scale_by conf cs "dump_osd_network" cmdmap format out
      = Some (true, out ++ [Text (bad_cmd_get_what "value")])
  end.
Proof.
  intros Hdouble. unfold call. rewrite asok_dump_osd_network. unfold cmd_getval.
  destruct (cmdmap !! "value") as [[s|b|v]|]; simpl; try done.
  - by rewrite clamp_max.
  - unfold default_value.
    destruct (to_int64 (mon_warn_on_slow_ping_time conf) =? 0).
    + destruct (times_1000000_ratio (osd_heartbeat_grace conf)
                  (mon_warn_on_slow_ping_ratio conf)) as [usec|] eqn:Husec; [|done].
      by rewrite (Hdouble _ _ _ Husec), clamp_max.
    + by rewrite clamp_max.
Qed.

(** Nothing configured but the defaults, no parameter: the report comes
    at one second. *)
Lemma threshold_resolution_double_witness :
  call scale_double conf_defaults ClusterState_new "dump_osd_network" ∅ "json" []
  = Some (true, [] ++ [Flushed "json" (report_doc (Z.max 0 1000000) PGMap_new)]).
Proof.
  exact (threshold_resolution_double scale_double conf_defaults ClusterState_new
           ∅ "json" [] scale_double_is_double).
Defined.

(** * A PG the aggregate already holds *)

